(** * Verification of the caching and rate-limiting layer of the RAG
    application.

    Modelled sources:
    - [src/lib/ratelimit.ts]: [getBucket], [rateLimit], [ipFromHeaders];
    - [src/unnamed/part_001] (lib/cache.ts): [MemoryCache], [simpleHash],
      [generateCacheKey], [generateQueryCacheKey], [withResponseCache];
    - [src/app/api/upload/route.ts] (third handler, the /api/chat route):
      the cache-relevant part of [POST].

    Conventions.  A JavaScript number that the code only ever uses as an
    integer (times in ms, counters, sizes, TTLs) is a [Z].  [Date.now()] is
    an explicit [now] argument of each operation.  A JS [Map] is an
    association list in insertion order (the iteration order of a JS Map),
    since [evictOldest] depends on that order; the process-wide bucket
    map of the rate limiter, whose order is never observed, is a stdpp
    [gmap]. *)

From Stdlib Require Import ZArith String Ascii QArith.
From Stdlib Require Import Decimal DecimalString DecimalZ.
From stdpp Require Import base gmap strings list.

Open Scope Z_scope.

(* ================================================================== *)
(** ** src/lib/ratelimit.ts *)

Module RateLimit.

Record Bucket := mkBucket {
  timestamps : list Z;
  limit : Z;
  windowMs : Z
}.

(** [getBucket]: the existing bucket has its [limit] and [windowMs]
    overwritten in place; a new bucket starts with no timestamps.  The
    returned bucket is the one stored in the map (aliasing), so the
    caller's later updates are written back under [key]. *)
Definition getBucket (buckets : gmap string Bucket) (key : string)
    (limit windowMs : Z) : gmap string Bucket * Bucket :=
  match buckets !! key with
  | Some existing =>
      let b := mkBucket existing.(timestamps) limit windowMs in
      (<[key := b]> buckets, b)
  | None =>
      let b := mkBucket [] limit windowMs in
      (<[key := b]> buckets, b)
  end.

(** [resetMs] is [None] where the code computes [NaN]: a denial with an
    empty pruned list (only possible when [limit <= 0]) reads
    [bucket.timestamps[0] = undefined]. *)
Record RateResult := mkRateResult {
  allowed : bool;
  remaining : Z;
  resetMs : option Z
}.

(** [bucket.timestamps = ts], a field update of the stored bucket. *)
Definition set_timestamps (b : Bucket) (ts : list Z) : Bucket :=
  mkBucket ts b.(limit) b.(windowMs).

Definition rateLimit (buckets : gmap string Bucket) (key : string)
    (limit windowMs : Z) (now : Z) : gmap string Bucket * RateResult :=
  let '(buckets1, bucket) := getBucket buckets key limit windowMs in
  let ts := List.filter (fun t => now - t <? windowMs) bucket.(timestamps) in
  if limit <=? Z.of_nat (length ts) then
    let reset := match ts with
                 | t0 :: _ => Some (Z.max 0 (windowMs - (now - t0)))
                 | [] => None
                 end in
    (<[key := set_timestamps bucket ts]> buckets1,
     mkRateResult false 0 reset)
  else
    let ts' := ts ++ [now] in
    (<[key := set_timestamps bucket ts']> buckets1,
     mkRateResult true (Z.max 0 (limit - Z.of_nat (length ts'))) (Some windowMs)).

(** One call [rateLimit({key, limit, windowMs})] made at time [cnow]. *)
Record Call := mkCall { ckey : string; climit : Z; cwindow : Z; cnow : Z }.

Fixpoint runCalls (buckets : gmap string Bucket) (calls : list Call)
    : gmap string Bucket * list RateResult :=
  match calls with
  | [] => (buckets, [])
  | c :: cs =>
      let '(b1, r) := rateLimit buckets c.(ckey) c.(climit) c.(cwindow) c.(cnow) in
      let '(b2, rs) := runCalls b1 cs in
      (b2, r :: rs)
  end.

(** The times of the admitted calls of a trace. *)
Fixpoint admitted (times : list Z) (rs : list RateResult) : list Z :=
  match times, rs with
  | t :: ts, r :: rs' => if r.(allowed) then t :: admitted ts rs' else admitted ts rs'
  | _, _ => []
  end.

Fixpoint nondecreasing (l : list Z) : bool :=
  match l with
  | x :: (y :: _) as l' => (x <=? y) && nondecreasing l'
  | _ => true
  end.

(** Number of times in the half-open window [[a, a + w)]. *)
Definition in_window (a w : Z) (l : list Z) : nat :=
  length (List.filter (fun t => (a <=? t) && (t <? a + w)) l).

(** [ipFromHeaders].  [Headers.get] is a lookup by (lower-case) header
    name; [if (xff)] is JavaScript truthiness, false on [null] and on the
    empty string. *)
Definition Headers := string -> option string.

Definition is_js_space (c : ascii) : bool :=
  existsb (Nat.eqb (nat_of_ascii c)) [9; 10; 11; 12; 13; 32; 160]%nat.

Fixpoint trim_start (s : string) : string :=
  match s with
  | EmptyString => EmptyString
  | String c s' => if is_js_space c then trim_start s' else s
  end.

Fixpoint trim_end (s : string) : string :=
  match s with
  | EmptyString => EmptyString
  | String c s' =>
      match trim_end s' with
      | EmptyString => if is_js_space c then EmptyString else String c EmptyString
      | r => String c r
      end
  end.

(** [String.prototype.trim]. *)
Definition trim (s : string) : string := trim_end (trim_start s).

(** [s.split(',')[0]]: the text before the first comma. *)
Fixpoint split_first (sep : ascii) (s : string) : string :=
  match s with
  | EmptyString => EmptyString
  | String c s' => if Ascii.eqb c sep then EmptyString else String c (split_first sep s')
  end.

Definition truthy_str (o : option string) : option string :=
  match o with
  | Some "" => None
  | Some s => Some s
  | None => None
  end%string.

Definition ipFromHeaders (headers : Headers) : string :=
  match truthy_str (headers "x-forwarded-for"%string) with
  | Some xff => trim (split_first "," xff)
  | None =>
      match truthy_str (headers "x-real-ip"%string) with
      | Some xr => xr
      | None => "unknown"%string
      end
  end.

End RateLimit.

(* ================================================================== *)
(** ** src/unnamed/part_001: [MemoryCache] *)

Module Cache.

Section MemoryCache.

Context {T : Type}.

Record CacheEntry := mkEntry {
  data : T;
  timestamp : Z;
  ttl : Z;
  hits : Z
}.

(** The private fields of a [MemoryCache]; [stats.hits] and
    [stats.misses] are [statHits] and [statMisses].  The cleanup timer
    handle is not modelled: [cleanup] is an explicit operation. *)
Record MemoryCache := mkCache {
  cache : list (string * CacheEntry);
  maxSize : Z;
  defaultTtl : Z;
  statHits : Z;
  statMisses : Z
}.

(** *** The JS [Map<string, CacheEntry>] as an insertion-ordered list *)

Fixpoint map_get (k : string) (m : list (string * CacheEntry)) : option CacheEntry :=
  match m with
  | [] => None
  | (k', e) :: m' => if String.eqb k k' then Some e else map_get k m'
  end.

Definition map_has (k : string) (m : list (string * CacheEntry)) : bool :=
  match map_get k m with Some _ => true | None => false end.

(** [Map.set]: an existing key keeps its position, a new key goes last. *)
Fixpoint map_replace (k : string) (e : CacheEntry) (m : list (string * CacheEntry))
    : list (string * CacheEntry) :=
  match m with
  | [] => []
  | (k', e') :: m' =>
      if String.eqb k k' then (k', e) :: m' else (k', e') :: map_replace k e m'
  end.

Definition map_set (k : string) (e : CacheEntry) (m : list (string * CacheEntry))
    : list (string * CacheEntry) :=
  if map_has k m then map_replace k e m else m ++ [(k, e)].

Definition map_delete (k : string) (m : list (string * CacheEntry))
    : list (string * CacheEntry) :=
  List.filter (fun p => negb (String.eqb k p.1)) m.

Definition with_cache (c : MemoryCache) (m : list (string * CacheEntry)) : MemoryCache :=
  mkCache m c.(maxSize) c.(defaultTtl) c.(statHits) c.(statMisses).

Definition with_stats (c : MemoryCache) (h mi : Z) : MemoryCache :=
  mkCache c.(cache) c.(maxSize) c.(defaultTtl) h mi.

(** [constructor(maxSize, defaultTtl)]. *)
Definition newCache (maxSize defaultTtl : Z) : MemoryCache :=
  mkCache [] maxSize defaultTtl 0 0.

(** *** [evictOldest] *)

(** The loop over [this.cache.entries()], starting from
    [oldestKey = null] and [oldestTimestamp = Date.now()]. *)
Fixpoint find_oldest (m : list (string * CacheEntry))
    (oldestKey : option string) (oldestTimestamp : Z) : option string :=
  match m with
  | [] => oldestKey
  | (k, e) :: m' =>
      if e.(timestamp) <? oldestTimestamp
      then find_oldest m' (Some k) e.(timestamp)
      else find_oldest m' oldestKey oldestTimestamp
  end.

(** [if (oldestKey)]: [null] and the empty string are falsy. *)
Definition evictOldest (c : MemoryCache) (now : Z) : MemoryCache :=
  match find_oldest c.(cache) None now with
  | Some k => if String.eqb k "" then c else with_cache c (map_delete k c.(cache))
  | None => c
  end.

(** *** Public operations; [now] is the value of [Date.now()].  The
    second read of [Date.now()] inside [evictOldest] happens in the same
    synchronous call of [set] and is given the same value. *)

Definition set (c : MemoryCache) (key : string) (value : T) (ttl : option Z) (now : Z)
    : MemoryCache :=
  let entryTtl := match ttl with Some t => t | None => c.(defaultTtl) end in
  let c1 := if (c.(maxSize) <=? Z.of_nat (length c.(cache))) && negb (map_has key c.(cache))
            then evictOldest c now else c in
  with_cache c1 (map_set key (mkEntry value now entryTtl 0) c1.(cache)).

Definition get (c : MemoryCache) (key : string) (now : Z) : MemoryCache * option T :=
  match map_get key c.(cache) with
  | None => (with_stats c c.(statHits) (c.(statMisses) + 1), None)
  | Some entry =>
      if now - entry.(timestamp) >? entry.(ttl) then
        (with_stats (with_cache c (map_delete key c.(cache))) c.(statHits) (c.(statMisses) + 1),
         None)
      else
        (* [entry.hits++] mutates the entry object held by the map *)
        let entry' := mkEntry entry.(data) entry.(timestamp) entry.(ttl) (entry.(hits) + 1) in
        (with_stats (with_cache c (map_set key entry' c.(cache))) (c.(statHits) + 1) c.(statMisses),
         Some entry.(data))
  end.

Definition has (c : MemoryCache) (key : string) (now : Z) : MemoryCache * bool :=
  match map_get key c.(cache) with
  | None => (c, false)
  | Some entry =>
      if now - entry.(timestamp) >? entry.(ttl)
      then (with_cache c (map_delete key c.(cache)), false)
      else (c, true)
  end.

Definition delete (c : MemoryCache) (key : string) : MemoryCache * bool :=
  (with_cache c (map_delete key c.(cache)), map_has key c.(cache)).

Definition clear (c : MemoryCache) : MemoryCache :=
  mkCache [] c.(maxSize) c.(defaultTtl) 0 0.

(** [cleanup]: deleting the current entry while iterating a JS Map does
    not disturb the iteration, so the loop is a filter. *)
Definition cleanup (c : MemoryCache) (now : Z) : MemoryCache :=
  with_cache c (List.filter (fun p => negb (now - p.2.(timestamp) >? p.2.(ttl))) c.(cache)).

(** [getStats]; [hitRate] is the quotient [hits / totalRequests] as a
    rational number. *)
Record CacheStats := mkStats {
  totalEntries : Z;
  totalHits : Z;
  totalMisses : Z;
  hitRate : Q;
  memoryUsage : Z
}.

Definition getStats (c : MemoryCache) : CacheStats :=
  let totalRequests := c.(statHits) + c.(statMisses) in
  let hitRate := if totalRequests >? 0
                 then (inject_Z c.(statHits) / inject_Z totalRequests)%Q else 0%Q in
  let memoryUsage := Z.of_nat (length c.(cache)) * 1024 in
  mkStats (Z.of_nat (length c.(cache))) c.(statHits) c.(statMisses) hitRate memoryUsage.

(** *** Traces of operations on one cache instance *)

Inductive Op :=
| OSet (key : string) (value : T) (ttl : option Z) (now : Z)
| OGet (key : string) (now : Z)
| OHas (key : string) (now : Z)
| ODelete (key : string)
| OClear
| OCleanup (now : Z).

Definition step (c : MemoryCache) (op : Op) : MemoryCache :=
  match op with
  | OSet k v t now => set c k v t now
  | OGet k now => fst (get c k now)
  | OHas k now => fst (has c k now)
  | ODelete k => fst (delete c k)
  | OClear => clear c
  | OCleanup now => cleanup c now
  end.

Definition run (c : MemoryCache) (ops : list Op) : MemoryCache :=
  fold_left step ops c.

(** Number of [get] calls after the last [clear] of a trace, and whether
    the trace contains a [clear]. *)
Fixpoint gets_since_clear (ops : list Op) : Z :=
  match ops with
  | [] => 0
  | op :: ops' =>
      if existsb (fun o => match o with OClear => true | _ => false end) ops'
      then gets_since_clear ops'
      else match op with
           | OGet _ _ => 1 + gets_since_clear ops'
           | _ => gets_since_clear ops'
           end
  end.

Definition has_clear (ops : list Op) : bool :=
  existsb (fun o => match o with OClear => true | _ => false end) ops.

End MemoryCache.

Arguments CacheEntry : clear implicits.
Arguments MemoryCache : clear implicits.
Arguments Op : clear implicits.

End Cache.

(* ================================================================== *)
(** ** src/unnamed/part_001: cache keys *)

Module Keys.

(** A JavaScript string as its sequence of UTF-16 code units, the values
    [str.charCodeAt(i)]. *)
Definition JsString := list Z.

(** The JS string of an ASCII literal. *)
Definition js (s : string) : JsString :=
  map (fun c => Z.of_nat (nat_of_ascii c)) (list_ascii_of_string s).

(** [ToInt32]: reduction modulo 2^32 into [[-2^31, 2^31)]. *)
Definition toInt32 (z : Z) : Z :=
  let m := z mod 2 ^ 32 in
  if m >=? 2 ^ 31 then m - 2 ^ 32 else m.

(** [x << n] with [0 <= n < 32]. *)
Definition js_shl (x : Z) (n : Z) : Z := toInt32 (Z.shiftl (toInt32 x) n).

(** [x & y]. *)
Definition js_and (x y : Z) : Z := Z.land (toInt32 x) (toInt32 y).

Definition digits36 : string := "0123456789abcdefghijklmnopqrstuvwxyz".

Definition digit36 (d : Z) : ascii :=
  match String.get (Z.to_nat d) digits36 with Some c => c | None => "0"%char end.

(** Base-36 digits of [n >= 0], most significant first, prepended to
    [acc]; [fuel] bounds the number of digits. *)
Fixpoint radix36 (fuel : nat) (n : Z) (acc : string) : string :=
  match fuel with
  | O => acc
  | S f =>
      let acc' := String (digit36 (n mod 36)) acc in
      if n / 36 =? 0 then acc' else radix36 f (n / 36) acc'
  end.

(** [n.toString(36)] for an integer [n >= 0]; a number has at most as
    many base-36 digits as bits. *)
Definition toString36 (n : Z) : string :=
  radix36 (S (Z.to_nat (Z.log2 n))) n EmptyString.

(** [n.toString()] / [String(n)] for an integer [n]: decimal digits
    without leading zeros, with a leading ['-'] when negative. *)
Definition js_num_to_string (n : Z) : string :=
  NilEmpty.string_of_int (Z.to_int n).

(** [simpleHash]: the loop body
    [hash = (hash << 5) - hash + char; hash = hash & hash]. *)
Definition simpleHash_step (hash : Z) (char : Z) : Z :=
  let h := js_shl hash 5 - hash + char in
  js_and h h.

Definition simpleHash (str : JsString) : string :=
  toString36 (Z.abs (fold_left simpleHash_step str 0)).

(** The [(string | number)] parts of [generateCacheKey]. *)
Inductive Part :=
| PStr (s : string)
| PNum (n : Z).

Definition part_to_string (p : Part) : string :=
  match p with PStr s => s | PNum n => js_num_to_string n end.

(** [Array.prototype.join(sep)]. *)
Fixpoint join (sep : string) (l : list string) : string :=
  match l with
  | [] => EmptyString
  | [s] => s
  | s :: l' => (s ++ sep ++ join sep l')%string
  end.

Definition generateCacheKey (prefix : string) (parts : list Part) : string :=
  (prefix ++ ":" ++ join ":" (map part_to_string parts))%string.

(** [flag ? '1' : '0'] for an optional boolean ([undefined] is falsy). *)
Definition flag_str (b : option bool) : string :=
  match b with Some true => "1" | _ => "0" end%string.

(** [sentenceWindowSize || 3]: [undefined] and [0] are falsy. *)
Definition window_or_default (w : option Z) : Z :=
  match w with Some n => if n =? 0 then 3 else n | None => 3 end.

Definition generateQueryCacheKey (question : JsString) (topK : Z)
    (enableRerank enableLLMRerank : option bool) (sentenceWindowSize : option Z) : string :=
  let hash := simpleHash question in
  generateCacheKey "query"
    [PStr hash; PNum topK; PStr (flag_str enableRerank); PStr (flag_str enableLLMRerank);
     PNum (window_or_default sentenceWindowSize)].

End Keys.

(* ================================================================== *)
(** ** The /api/chat handler and [withResponseCache] *)

Module Chat.

Import RateLimit Cache Keys.

(** Values held by the process-wide [responseCache]: the chat handler
    stores [{answer, sources}], [withResponseCache] stores a serialised
    HTTP response.  Both are objects, hence truthy. *)
Inductive CachedValue :=
| CachedChat (answer : string) (sources : list string)
| CachedHttp (body : string) (status : Z) (statusText : string)
             (headers : list (string * string)).

Record Response := mkResponse {
  status : Z;
  statusText : string;
  rheaders : list (string * string);
  body : string;
  json_payload : option CachedValue
}.

(** [Response.ok]. *)
Definition ok (r : Response) : bool := (200 <=? r.(status)) && (r.(status) <? 300).

(** The fields of the validated request body ([bodySchema.parse]). *)
Record ChatRequest := mkChatRequest {
  question : JsString;
  topK : option Z;
  enableLLMRerank : option bool;
  enableRerank : option bool;
  sentenceWindowSize : option Z
}.

(** Outcome of [fetch(pyUrl/chat)] followed by [await resp.json()]. *)
Inductive Backend :=
| BackendOk (answer : string) (sources : list string)
| BackendNotOk (status : Z)
| BackendBadJson.

(** Errors thrown inside the [try] and turned into a response by
    [handleApiError]; only the status matters here. *)
Definition error_response (st : Z) : Response :=
  mkResponse st "" [] "" None.

Definition json_response (v : CachedValue) : Response :=
  mkResponse 200 "" [("Content-Type", "application/json")]%string "" (Some v).

(** [generateQueryCacheKey(question, topK || 5, enableRerank,
    enableLLMRerank, sentenceWindowSize)]. *)
Definition chat_cache_key (req : ChatRequest) : string :=
  generateQueryCacheKey req.(question)
    (match req.(topK) with Some k => if k =? 0 then 5 else k | None => 5 end)
    req.(enableRerank) req.(enableLLMRerank) req.(sentenceWindowSize).

(** The process-wide state the handler touches. *)
Record ServerState := mkServer {
  buckets : gmap string Bucket;
  responseCache : MemoryCache CachedValue
}.

(** [POST] of the chat route.  [body] is [None] when [bodySchema.parse]
    throws; [now] is the time of the rate-limit check and the cache
    lookup, [t_resp] the time after the backend answered. *)
Definition chat_POST (st : ServerState) (ip : string) (body : option ChatRequest)
    (backend : Backend) (now t_resp : Z) : ServerState * Response :=
  let '(bs1, rl) := rateLimit st.(buckets) ("chat:" ++ ip)%string 60 60000 now in
  let st1 := mkServer bs1 st.(responseCache) in
  if negb rl.(allowed) then (st1, error_response 429) else
  match body with
  | None => (st1, error_response 500)   (* a ZodError is not an AppError *)
  | Some req =>
      let cacheKey := chat_cache_key req in
      let '(c1, cachedResponse) := get st1.(responseCache) cacheKey now in
      let st2 := mkServer bs1 c1 in
      match cachedResponse with
      | Some v => (st2, json_response v)
      | None =>
          match backend with
          | BackendBadJson => (st2, error_response 500)
          | BackendNotOk s => (st2, error_response 502)
          | BackendOk a srcs =>
              let responseData := CachedChat a srcs in
              (mkServer bs1 (set c1 cacheKey responseData (Some 300000) t_resp),
               json_response responseData)
          end
      end
  end.

(** [new Response(cached.body, cached)]: a cached HTTP response is
    rebuilt from its fields; a cached chat value has no [body] and no
    [status], which gives an empty 200 response. *)
Definition response_of_cached (v : CachedValue) : Response :=
  match v with
  | CachedHttp b s stxt hs => mkResponse s stxt hs b None
  | CachedChat _ _ => mkResponse 200 "" [] "" None
  end.

(** [withResponseCache(keyGenerator, ttl)(handler)] applied to one
    request whose key is [key]; [handler_response] is what the wrapped
    handler returns on a miss. *)
Definition withResponseCache (c : MemoryCache CachedValue) (key : string) (ttl : option Z)
    (handler_response : Response) (now t_resp : Z) : MemoryCache CachedValue * Response :=
  let '(c1, cached) := get c key now in
  match cached with
  | Some v => (c1, response_of_cached v)
  | None =>
      if ok handler_response then
        (set c1 key (CachedHttp handler_response.(body) handler_response.(status)
                       handler_response.(statusText) handler_response.(rheaders)) ttl t_resp,
         handler_response)
      else (c1, handler_response)
  end.

End Chat.

(* ================================================================== *)
(** ** src/unnamed/part_001: [cached] and [cachedAsync] *)

Module Wrappers.

Import Cache.

Section Cached.

Context {A V : Type}.

(** The wrapped function and the key generator.  A result of [fn] is a
    JS value: [None] is [null], [Some v] any other value.  [fn] is taken
    to return normally (a throw propagates out of the wrapper before
    [cache.set] is reached). *)
Variable fn : A -> option V.
Variable keyGenerator : A -> string.

(** One call of the function returned by [cached(fn, cache, keyGenerator,
    ttl)] on [args] at time [now]: the cache afterwards, the value
    returned, and whether [fn] ran.  [cache.get] returns [null] on a miss
    ([None]) and the stored value on a hit ([Some x], where [x] is itself
    [null] when [null] was stored). *)
Definition cached (c : MemoryCache (option V)) (ttl : option Z) (args : A) (now : Z)
    : MemoryCache (option V) * option V * bool :=
  let key := keyGenerator args in
  let '(c1, hit) := get c key now in
  match hit with
  | Some (Some v) => (c1, Some v, false)
  | _ => let result := fn args in (set c1 key result ttl now, result, true)
  end.

(** [cachedAsync]: the same, except that [cache.set] runs after
    [await fn(...args)] has resolved, at time [now_set]. *)
Definition cachedAsync (c : MemoryCache (option V)) (ttl : option Z) (args : A)
    (now now_set : Z) : MemoryCache (option V) * option V * bool :=
  let key := keyGenerator args in
  let '(c1, hit) := get c key now in
  match hit with
  | Some (Some v) => (c1, Some v, false)
  | _ => let result := fn args in (set c1 key result ttl now_set, result, true)
  end.

End Cached.

End Wrappers.

(* ================================================================== *)
(** ** src/app/api/upload/route.ts: [POST] *)

Module Upload.

Import RateLimit.

(** A file name as its code units; names are taken to be Latin-1 (code
    units below 256), on which [toLowerCase] maps [A-Z] and [À-Þ]
    (except [×]) one-to-one and keeps the length. *)
Definition Name := list ascii.

Definition L (s : string) : Name := list_ascii_of_string s.

Definition lower_char (c : ascii) : ascii :=
  let n := nat_of_ascii c in
  if (((65 <=? n) && (n <=? 90)) || ((192 <=? n) && (n <=? 222) && negb (n =? 215)))%nat
  then ascii_of_nat (n + 32)%nat else c.

(** [s.toLowerCase()]. *)
Definition toLowerCase (s : Name) : Name := map lower_char s.

(** [s.lastIndexOf(c)]: the last index of [c], or [-1]. *)
Fixpoint last_index_from (c : ascii) (s : Name) (i acc : Z) : Z :=
  match s with
  | [] => acc
  | x :: s' => last_index_from c s' (i + 1) (if Ascii.eqb x c then i else acc)
  end.

Definition lastIndexOf (c : ascii) (s : Name) : Z := last_index_from c s 0 (-1).

(** [s.substring(start)]: [start] is clamped to [[0, s.length]]. *)
Definition substring_from (start : Z) (s : Name) : Name := skipn (Z.to_nat start) s.

(** [arr.includes(x)] on strings. *)
Definition includes (x : Name) (l : list Name) : bool := existsb (fun y => bool_decide (x = y)) l.

(** [s.endsWith(suf)]. *)
Definition ends_with (suf s : Name) : bool :=
  (length suf <=? length s)%nat && bool_decide (skipn (length s - length suf) s = suf).

(** A match of the literal [needle] at the start of [hay], and anywhere
    in [hay] (a regular expression made of literal characters). *)
Definition starts_with (needle hay : Name) : bool :=
  (length needle <=? length hay)%nat && bool_decide (firstn (length needle) hay = needle).

Fixpoint contains (needle hay : Name) : bool :=
  starts_with needle hay || match hay with [] => false | _ :: t => contains needle t end.

Definition MAX_FILES : Z := 12.
Definition MAX_TOTAL_SIZE : Z := 100 * 1024 * 1024.
Definition MAX_FILE_SIZE : Z := 25 * 1024 * 1024.

Definition ALLOWED_EXTENSIONS : list Name :=
  map L [".pdf"; ".docx"; ".html"; ".htm"; ".txt"; ".md"]%string.

(** [SUSPICIOUS_PATTERNS]: seven patterns anchored at the end ([$]) and
    five matched anywhere; each is tested on the lowercased name. *)
Definition SUSPICIOUS_SUFFIXES : list Name :=
  map L [".exe"; ".bat"; ".cmd"; ".scr"; ".vbs"; ".js"; ".jar"]%string.

Definition SUSPICIOUS_INFIXES : list Name :=
  map L ["<script"; "javascript:"; "vbscript:"; "onload="; "onerror="]%string.

Definition suspicious (fileName : Name) : bool :=
  existsb (fun p => ends_with p fileName) SUSPICIOUS_SUFFIXES ||
  existsb (fun p => contains p fileName) SUSPICIOUS_INFIXES.

(** The [allowed] MIME types. *)
Definition allowed_types : list string :=
  ["application/pdf";
   "application/vnd.openxmlformats-officedocument.wordprocessingml.document";
   "text/html"; "application/xhtml+xml"; "text/plain"; "text/markdown";
   "application/octet-stream"]%string.

(** An entry of [form.getAll("files")]: a [File] or a plain string. *)
Inductive FormEntry :=
| FileEntry (name : Name) (size : Z) (type : string)
| TextEntry (value : string).

(** The [FileUploadError]s thrown inside the loop. *)
Inductive Rejection :=
| FileTooLarge (name : Name)
| TotalTooLarge
| BadExtension (ext : Name)
| Suspicious (name : Name)
| BadMime (name : Name).

Section Post.

(** [saveIncomingFile(UPLOAD_DIR, f)] (from [@/lib/upload]): writes the
    file and returns its path; it is taken to succeed. *)
Variable saveIncomingFile : Name -> Z -> string -> string.

(** The [for (const f of files)] loop, from the running [totalSize] and
    the paths [saved] so far: the paths saved when the loop ends, and
    the rejection that ended it, if any.  Each file is written as soon
    as it passes its checks. *)
Fixpoint upload_loop (files : list FormEntry) (totalSize : Z) (saved : list string)
    : list string * option Rejection :=
  match files with
  | [] => (saved, None)
  | TextEntry _ :: fs => upload_loop fs totalSize saved
  | FileEntry name size type :: fs =>
      if size >? MAX_FILE_SIZE then (saved, Some (FileTooLarge name)) else
      let totalSize' := totalSize + size in
      if totalSize' >? MAX_TOTAL_SIZE then (saved, Some TotalTooLarge) else
      let fileExt := substring_from (lastIndexOf "." name) (toLowerCase name) in
      if negb (includes fileExt ALLOWED_EXTENSIONS) then (saved, Some (BadExtension fileExt)) else
      let fileName := toLowerCase name in
      if suspicious fileName then (saved, Some (Suspicious name)) else
      if negb (existsb (String.eqb type) allowed_types) &&
         negb (existsb (fun ext => ends_with ext (toLowerCase name)) ALLOWED_EXTENSIONS)
      then (saved, Some (BadMime name)) else
      upload_loop fs totalSize' (saved ++ [saveIncomingFile name size type])
  end.

(** Outcome of [fetch(pyUrl/ingest)] and [await resp.json()]: an ok
    response whose JSON has [ingested] (or not), a non-ok response with
    a JSON body, or a rejected fetch or a body that is not JSON. *)
Inductive Ingest :=
| IngestOk (ingested : option Z)
| IngestNotOk (status : Z)
| IngestFails.

Record UploadResult := mkUploadResult {
  ustatus : Z;
  written : list string;               (* files written by [saveIncomingFile] *)
  ingest_paths : option (list string); (* [file_paths] posted to the backend *)
  ingested : option Z                  (* [ingested] of a 200 response *)
}.

(** [POST]: [form] is [None] when [req.formData()] throws.  Errors reach
    [handleApiError]: [RateLimitError] gives 429, [FileUploadError] 400,
    [ExternalServiceError] 502, any other error 500. *)
Definition upload_POST (bs : gmap string Bucket) (ip : string) (form : option (list FormEntry))
    (backend : Ingest) (now : Z) : gmap string Bucket * UploadResult :=
  let '(bs1, rl) := rateLimit bs ("upload:" ++ ip)%string 20 60000 now in
  if negb rl.(allowed) then (bs1, mkUploadResult 429 [] None None) else
  match form with
  | None => (bs1, mkUploadResult 500 [] None None)
  | Some files =>
      if (length files =? 0)%nat then (bs1, mkUploadResult 400 [] None None) else
      if Z.of_nat (length files) >? MAX_FILES then (bs1, mkUploadResult 400 [] None None) else
      match upload_loop files 0 [] with
      | (saved, Some _) => (bs1, mkUploadResult 400 saved None None)
      | (saved, None) =>
          match backend with
          | IngestFails => (bs1, mkUploadResult 500 saved (Some saved) None)
          | IngestNotOk _ => (bs1, mkUploadResult 502 saved (Some saved) None)
          | IngestOk n =>
              (bs1, mkUploadResult 200 saved (Some saved)
                      (Some match n with Some k => k | None => Z.of_nat (length saved) end))
          end
      end
  end.

End Post.

End Upload.

(* ================================================================== *)
(** ** src/unnamed/part_001: [BrowserStorageCache] *)

Module Browser.

Section BrowserStorageCache.

Context {V : Type}.

(** The item [{data, timestamp, ttl}] written by [set].  The storage is
    a map from keys to the items written by this class: [JSON.parse] of
    [JSON.stringify(item)] is taken to give back [item] (JSON-safe
    [data]). *)
Record Item := mkItem {
  idata : V;
  itimestamp : Z;
  ittl : Z
}.

(** [`${this.prefix}_${key}`]. *)
Definition storage_key (prefix key : string) : string := (prefix ++ "_" ++ key)%string.

(** [set(key, value, ttl = 300000)] at time [now]; [fits] is [false]
    when [storage.setItem] throws (the error is logged and dropped). *)
Definition bset (st : gmap string Item) (prefix key : string) (value : V) (ttl : option Z)
    (now : Z) (fits : bool) : gmap string Item :=
  let item := mkItem value now (match ttl with Some t => t | None => 300000 end) in
  if fits then <[storage_key prefix key := item]> st else st.

(** [get(key)] at time [now]; a stored string is never empty, so
    [!item] only holds for a missing key. *)
Definition bget (st : gmap string Item) (prefix key : string) (now : Z) : gmap string Item * option V :=
  match st !! storage_key prefix key with
  | None => (st, None)
  | Some it =>
      if now - it.(itimestamp) >? it.(ittl)
      then (delete (storage_key prefix key) st, None)
      else (st, Some it.(idata))
  end.

Definition bdelete (st : gmap string Item) (prefix key : string) : gmap string Item :=
  delete (storage_key prefix key) st.

(** [clear()]: every key of the storage that starts with
    [`${this.prefix}_`] is removed. *)
Definition bclear (st : gmap string Item) (prefix : string) : gmap string Item :=
  filter (fun kv => String.prefix (prefix ++ "_") kv.1 = false) st.

End BrowserStorageCache.

Arguments Item : clear implicits.

End Browser.

(* ================================================================== *)
(** * Properties *)

(** ** Rate limiter *)

Module RateLimitFacts.

Import RateLimit.

(** The timestamps held for [key] ([[]] for a key never seen). *)
Definition prev (bs : gmap string Bucket) (key : string) : list Z :=
  match bs !! key with Some b => b.(timestamps) | None => [] end.

(** The admission decision on the timestamps of one bucket. *)
Definition step_ts (N W now : Z) (ts : list Z) : list Z * RateResult :=
  let ts1 := List.filter (fun t => now - t <? W) ts in
  if N <=? Z.of_nat (length ts1) then
    (ts1, mkRateResult false 0
            match ts1 with t0 :: _ => Some (Z.max 0 (W - (now - t0))) | [] => None end)
  else
    (ts1 ++ [now], mkRateResult true (Z.max 0 (N - Z.of_nat (length (ts1 ++ [now])))) (Some W)).

Fixpoint run_key (N W : Z) (times : list Z) (ts : list Z) : list Z * list RateResult :=
  match times with
  | [] => (ts, [])
  | t :: times' =>
      let '(ts1, r) := step_ts N W t ts in
      let '(tsf, rs) := run_key N W times' ts1 in
      (tsf, r :: rs)
  end.

Lemma rateLimit_spec (bs : gmap string Bucket) key N W now :
  rateLimit bs key N W now =
  (<[key := mkBucket (step_ts N W now (prev bs key)).1 N W]> bs,
   (step_ts N W now (prev bs key)).2).
Proof.
  unfold rateLimit, getBucket, step_ts, prev, set_timestamps.
  destruct (bs !! key) as [b|]; simpl;
    destruct (_ <=? _); simpl; rewrite insert_insert_eq; reflexivity.
Qed.

Lemma runCalls_key (bs : gmap string Bucket) key N W (times : list Z) :
  (runCalls bs (map (fun t => mkCall key N W t) times)).2 = (run_key N W times (prev bs key)).2 /\
  (runCalls bs (map (fun t => mkCall key N W t) times)).1 !! key =
    match times with
    | [] => bs !! key
    | _ => Some (mkBucket (run_key N W times (prev bs key)).1 N W)
    end.
Proof.
  revert bs. induction times as [|t times IH]; intros bs; [split; reflexivity|].
  simpl. rewrite rateLimit_spec.
  destruct (step_ts N W t (prev bs key)) as [ts1 r] eqn:Hs. simpl.
  destruct (IH (<[key:=mkBucket ts1 N W]> bs)) as [IH1 IH2].
  assert (Hp : prev (<[key:=mkBucket ts1 N W]> bs) key = ts1)
    by (unfold prev; rewrite lookup_insert_eq; reflexivity).
  rewrite Hp in IH1, IH2.
  destruct (runCalls (<[key:=mkBucket ts1 N W]> bs) (map (fun t0 => mkCall key N W t0) times))
    as [bs2 rs] eqn:Hr.
  destruct (run_key N W times ts1) as [tsf rs'] eqn:Hk. simpl in *.
  split; [congruence|].
  rewrite IH2. destruct times; simpl in *.
  - rewrite lookup_insert_eq. inversion Hk; reflexivity.
  - reflexivity.
Qed.

Lemma length_filter_mono {A} (f g : A -> bool) (l : list A) :
  (forall x, f x = true -> g x = true) ->
  (length (List.filter f l) <= length (List.filter g l))%nat.
Proof.
  intros Hfg. induction l as [|x l IH]; simpl; [lia|].
  destruct (f x) eqn:Hf; [rewrite (Hfg x Hf); simpl; lia|].
  destruct (g x); simpl; lia.
Qed.

Lemma filter_filter_mono {A} (f g : A -> bool) (l : list A) :
  (forall x, f x = true -> g x = true) ->
  List.filter f (List.filter g l) = List.filter f l.
Proof.
  intros Hfg. induction l as [|x l IH]; simpl; [reflexivity|].
  destruct (g x) eqn:Hg; simpl.
  - destruct (f x); rewrite IH; reflexivity.
  - destruct (f x) eqn:Hf; [rewrite (Hfg x Hf) in Hg; discriminate|exact IH].
Qed.

Lemma in_window_app a w (l1 l2 : list Z) :
  in_window a w (l1 ++ l2) = (in_window a w l1 + in_window a w l2)%nat.
Proof. unfold in_window. rewrite List.filter_app, length_app. reflexivity. Qed.

Lemma last_cons (x d : Z) (l : list Z) : List.last (x :: l) d = List.last l x.
Proof.
  revert x d. induction l as [|y l IH]; intros x d; [reflexivity|].
  change (List.last (y :: l) d = List.last (y :: l) x). rewrite !IH. reflexivity.
Qed.

Lemma nondecreasing_cons (x y : Z) (l : list Z) :
  nondecreasing (x :: y :: l) = (x <=? y) && nondecreasing (y :: l).
Proof. reflexivity. Qed.

(** The invariant of one bucket along a trace of calls with a fixed
    [limit = N] and [windowMs = W]: the bucket is the history [H] of
    admitted times pruned at the last call time, and no half-open window
    of length [W] holds more than [N] admitted times. *)
Lemma run_key_inv (N W : Z) (HN : 0 <= N) (HW : 0 < W) :
  forall (times ts H : list Z) (last : Z),
  nondecreasing (last :: times) = true ->
  ts = List.filter (fun t => last - t <? W) H ->
  Forall (fun t => t <= last) H ->
  (forall a, Z.of_nat (in_window a W H) <= N) ->
  Z.of_nat (length ts) <= N ->
  let lastt := List.last times last in
  let H' := H ++ admitted times (run_key N W times ts).2 in
  (run_key N W times ts).1 = List.filter (fun t => lastt - t <? W) H' /\
  Forall (fun t => t <= lastt) H' /\
  (forall a, Z.of_nat (in_window a W H') <= N) /\
  Z.of_nat (length (run_key N W times ts).1) <= N.
Proof.
  induction times as [|t times IH]; intros ts H last Hnd Hts HH Hwin Hlen.
  - simpl. rewrite app_nil_r. subst ts. auto.
  - rewrite nondecreasing_cons in Hnd. apply andb_prop in Hnd as [Hle Hnd]. apply Z.leb_le in Hle.
    assert (Hts1 : List.filter (fun x => t - x <? W) ts = List.filter (fun x => t - x <? W) H).
    { subst ts. apply filter_filter_mono. intros x Hx. apply Z.ltb_lt in Hx.
      apply Z.ltb_lt. lia. }
    assert (HH' : Forall (fun x => x <= t) H).
    { eapply Forall_impl; [exact HH|]. simpl. intros x Hx. lia. }
    assert (Hlast : List.last (t :: times) last = List.last times t) by apply last_cons.
    cbv zeta. rewrite Hlast. simpl run_key. unfold step_ts.
    destruct (N <=? Z.of_nat (length (List.filter (fun x => t - x <? W) ts))) eqn:Hcmp.
    + (* denied: nothing is recorded *)
      destruct (run_key N W times (List.filter (fun x => t - x <? W) ts)) as [tsf rs] eqn:Hk.
      simpl.
      pose proof (IH (List.filter (fun x => t - x <? W) ts) H t Hnd Hts1 HH' Hwin) as IH'.
      rewrite Hk in IH'. simpl in IH'. apply IH'.
      rewrite Hts1.
      pose proof (length_filter_mono (fun x => t - x <? W) (fun x => last - x <? W) H) as Hm.
      specialize (Hm ltac:(intros x Hx; apply Z.ltb_lt in Hx; apply Z.ltb_lt; lia)).
      rewrite Hts in Hlen. lia.
    + (* admitted: [t] is appended *)
      apply Z.leb_gt in Hcmp.
      destruct (run_key N W times (List.filter (fun x => t - x <? W) ts ++ [t]))
        as [tsf rs] eqn:Hk. simpl.
      assert (Hts2 : List.filter (fun x => t - x <? W) ts ++ [t]
                     = List.filter (fun x => t - x <? W) (H ++ [t])).
      { rewrite List.filter_app, Hts1. simpl.
        replace (t - t <? W) with true by (symmetry; apply Z.ltb_lt; lia). reflexivity. }
      assert (HH2 : Forall (fun x => x <= t) (H ++ [t])).
      { apply Forall_app. split; [exact HH'|]. constructor; [lia|constructor]. }
      assert (Hwin2 : forall a, Z.of_nat (in_window a W (H ++ [t])) <= N).
      { intros a. rewrite in_window_app.
        unfold in_window at 2. simpl.
        destruct ((a <=? t) && (t <? a + W)) eqn:Ha; simpl.
        - apply andb_prop in Ha as [Ha1 Ha2].
          apply Z.leb_le in Ha1. apply Z.ltb_lt in Ha2.
          assert (Hm : (in_window a W H <= length (List.filter (fun x : Z => (t - x <? W)%Z) H))%nat).
          { unfold in_window. apply length_filter_mono.
            intros x Hx. apply andb_prop in Hx as [Hx1 Hx2].
            apply Z.leb_le in Hx1. apply Z.ltb_lt. lia. }
          rewrite Hts1 in Hcmp. lia.
        - specialize (Hwin a). lia. }
      assert (Hlen2 : Z.of_nat (length (List.filter (fun x => t - x <? W) ts ++ [t])) <= N).
      { rewrite length_app. simpl. lia. }
      pose proof (IH _ (H ++ [t]) t Hnd Hts2 HH2 Hwin2 Hlen2) as IH'.
      rewrite Hk in IH'. simpl in IH'. rewrite <- app_assoc in IH'. exact IH'.
Qed.

(** C3: for a fixed key, limit [N >= 0] and window [W > 0], and any
    nondecreasing sequence of call times starting from a key never seen,
    no half-open window [[a, a + W)] contains more than [N] admitted calls;
    after the last call the bucket holds at most [N] timestamps, each at
    most the current time and less than [W] before it. *)
Theorem rateLimit_sliding_window (bs : gmap string Bucket) (key : string)
    (N W : Z) (times : list Z) :
  bs !! key = None -> 0 <= N -> 0 < W -> nondecreasing times = true ->
  let '(bs', rs) := runCalls bs (map (fun t => mkCall key N W t) times) in
  (forall a, Z.of_nat (in_window a W (admitted times rs)) <= N) /\
  (forall b, bs' !! key = Some b ->
     Z.of_nat (length b.(timestamps)) <= N /\
     Forall (fun t => t <= List.last times 0 /\ List.last times 0 - t < W) b.(timestamps)).
Proof.
  intros Hnone HN HW Hnd.
  destruct (runCalls_key bs key N W times) as [Hrs Hbs].
  destruct (runCalls bs (map (fun t => mkCall key N W t) times)) as [bs' rs]. simpl in Hrs, Hbs.
  assert (Hprev : prev bs key = []) by (unfold prev; rewrite Hnone; reflexivity).
  rewrite Hprev in Hrs, Hbs.
  destruct times as [|t0 times'].
  - simpl in *. subst rs. split; [intros a; unfold in_window; simpl; lia|].
    intros b Hb. congruence.
  - pose proof (run_key_inv N W HN HW (t0 :: times') [] [] t0) as Hinv.
    assert (Hnd' : nondecreasing (t0 :: t0 :: times') = true)
      by (rewrite nondecreasing_cons, Hnd, Z.leb_refl; reflexivity).
    specialize (Hinv Hnd' eq_refl (List.Forall_nil _)
                  ltac:(intros a; unfold in_window; simpl; lia) ltac:(simpl; lia)).
    cbv zeta in Hinv. rewrite app_nil_l, <- Hrs in Hinv.
    destruct Hinv as (Hf & Hall & Hwin & Hlen).
    remember (run_key N W (t0 :: times') []) as R eqn:HR.
    rewrite last_cons in Hf, Hall. rewrite last_cons.
    split; [exact Hwin|].
    intros b Hb. rewrite Hbs in Hb. injection Hb as <-. cbn [timestamps].
    split; [exact Hlen|].
    rewrite Hf. apply List.Forall_forall. intros x Hx.
    apply List.filter_In in Hx as [Hx1 Hx2]. apply Z.ltb_lt in Hx2.
    rewrite List.Forall_forall in Hall. specialize (Hall x Hx1). lia.
Qed.

Lemma rateLimit_sliding_window_witness :
  let '(bs', rs) := runCalls (∅ : gmap string Bucket)
                      (map (fun t => mkCall "k" 3 1000 t) [0; 100; 200; 300; 1001; 1001; 2500]) in
  (forall a, Z.of_nat (in_window a 1000 (admitted [0; 100; 200; 300; 1001; 1001; 2500] rs)) <= 3) /\
  (forall b, bs' !! "k"%string = Some b ->
     Z.of_nat (length b.(timestamps)) <= 3 /\
     Forall (fun t => t <= List.last [0; 100; 200; 300; 1001; 1001; 2500] 0 /\
                      List.last [0; 100; 200; 300; 1001; 1001; 2500] 0 - t < 1000) b.(timestamps)).
Proof.
  apply (rateLimit_sliding_window ∅ "k" 3 1000 [0; 100; 200; 300; 1001; 1001; 2500]);
    [reflexivity | lia | lia | reflexivity].
Defined.

(** C4: with [limit = 3] and [windowMs = 1000], calls at 0, 100, 200,
    300 on a fresh key give allowed = true, true, true, false; the denied
    call records nothing (the bucket is [[0; 100; 200]]); a fifth call at
    1001 is allowed. *)
Theorem rateLimit_window_scenario (bs : gmap string Bucket) (key : string) :
  bs !! key = None ->
  map allowed (runCalls bs (map (fun t => mkCall key 3 1000 t) [0; 100; 200; 300; 1001])).2
    = [true; true; true; false; true] /\
  (runCalls bs (map (fun t => mkCall key 3 1000 t) [0; 100; 200; 300])).1 !! key
    = Some (mkBucket [0; 100; 200] 3 1000).
Proof.
  intros Hnone.
  destruct (runCalls_key bs key 3 1000 [0; 100; 200; 300; 1001]) as [H1 _].
  destruct (runCalls_key bs key 3 1000 [0; 100; 200; 300]) as [_ H2].
  assert (Hprev : prev bs key = []) by (unfold prev; rewrite Hnone; reflexivity).
  rewrite H1, H2, Hprev. split; vm_compute; reflexivity.
Qed.

Lemma rateLimit_window_scenario_witness :
  map allowed (runCalls ∅ (map (fun t => mkCall "ip:chat" 3 1000 t) [0; 100; 200; 300; 1001])).2
    = [true; true; true; false; true] /\
  (runCalls ∅ (map (fun t => mkCall "ip:chat" 3 1000 t) [0; 100; 200; 300])).1 !! "ip:chat"%string
    = Some (mkBucket [0; 100; 200] 3 1000).
Proof.
  apply (rateLimit_window_scenario ∅ "ip:chat"). reflexivity.
Defined.

End RateLimitFacts.

(** ** Cache keys *)

Module KeyFacts.

Import Keys.

Fixpoint no_colon (s : string) : bool :=
  match s with
  | EmptyString => true
  | String c s' => negb (Ascii.eqb c ":") && no_colon s'
  end.

Lemma no_colon_get (n : nat) (s : string) (c : ascii) :
  no_colon s = true -> String.get n s = Some c -> c <> ":"%char.
Proof.
  revert n. induction s as [|c' s IH]; intros n Hs Hg; [destruct n; discriminate|].
  simpl in Hs. apply andb_prop in Hs as [Hc Hs].
  destruct n as [|n]; simpl in Hg.
  - injection Hg as <-. intros ->. discriminate.
  - exact (IH n Hs Hg).
Qed.

Lemma digit36_not_colon (d : Z) : digit36 d <> ":"%char.
Proof.
  unfold digit36. destruct (String.get (Z.to_nat d) digits36) eqn:Hg.
  - exact (no_colon_get _ digits36 _ eq_refl Hg).
  - discriminate.
Qed.

Lemma no_colon_radix36 (fuel : nat) (n : Z) (acc : string) :
  no_colon acc = true -> no_colon (radix36 fuel n acc) = true.
Proof.
  revert n acc. induction fuel as [|f IH]; intros n acc Hacc; simpl; [exact Hacc|].
  assert (H1 : no_colon (String (digit36 (n mod 36)) acc) = true).
  { simpl. rewrite Hacc, andb_true_r.
    destruct (Ascii.eqb (digit36 (n mod 36)) ":") eqn:He; [|reflexivity].
    apply Ascii.eqb_eq in He. exfalso. exact (digit36_not_colon _ He). }
  destruct (n / 36 =? 0); [exact H1|exact (IH _ _ H1)].
Qed.

Lemma no_colon_simpleHash (q : JsString) : no_colon (simpleHash q) = true.
Proof. apply no_colon_radix36. reflexivity. Qed.

Lemma no_colon_uint (d : uint) : no_colon (NilEmpty.string_of_uint d) = true.
Proof. induction d; simpl; auto. Qed.

Lemma no_colon_num (n : Z) : no_colon (js_num_to_string n) = true.
Proof.
  unfold js_num_to_string, NilEmpty.string_of_int.
  destruct (Z.to_int n); simpl; apply no_colon_uint.
Qed.

Lemma js_num_to_string_inj (a b : Z) : js_num_to_string a = js_num_to_string b -> a = b.
Proof.
  unfold js_num_to_string. intros H.
  apply DecimalZ.to_int_inj.
  apply (f_equal NilEmpty.int_of_string) in H.
  rewrite !NilEmpty.isi in H. congruence.
Qed.

Lemma split_colon (a a' r r' : string) :
  no_colon a = true -> no_colon a' = true ->
  (a ++ String ":" r)%string = (a' ++ String ":" r')%string -> a = a' /\ r = r'.
Proof.
  revert a'. induction a as [|c a IH]; intros a' Ha Ha' Heq; destruct a' as [|c' a'];
    simpl in *.
  - injection Heq as ->. auto.
  - injection Heq as <- _. discriminate.
  - injection Heq as -> _. discriminate.
  - apply andb_prop in Ha as [_ Ha]. apply andb_prop in Ha' as [_ Ha'].
    injection Heq as <- Heq. destruct (IH a' Ha Ha' Heq) as [-> ->]. auto.
Qed.

Lemma flag_str_cases (b : option bool) : flag_str b = "1"%string \/ flag_str b = "0"%string.
Proof. destruct b as [[]|]; simpl; auto. Qed.

Lemma append_cancel_l (p x y : string) : (p ++ x)%string = (p ++ y)%string -> x = y.
Proof. induction p as [|c p IH]; simpl; [auto|]. intros H. injection H. exact IH. Qed.

(** C6 (counterexample): the questions "Aaa" and "BBa" differ but
    [simpleHash] maps both to "1eld", so with every other argument equal
    the keys coincide. *)
Lemma generateQueryCacheKey_question_collision :
  js "Aaa" <> js "BBa" /\
  generateQueryCacheKey (js "Aaa") 5 None None None
  = generateQueryCacheKey (js "BBa") 5 None None None.
Proof.
  split.
  - vm_compute. discriminate.
  - vm_compute. reflexivity.
Qed.

(** C6 (amended): two calls of [generateQueryCacheKey] give the same key
    exactly when the questions have the same [simpleHash], the [topK]
    values are equal, each rerank flag has the same truthiness and the
    window sizes after [|| 3] are equal.  In particular the key is a
    function of the arguments, and changing [topK], a flag, or the window
    size (other than between [0], omitted and [3]) changes it, while a
    change of question changes it only when the hash changes. *)
Theorem generateQueryCacheKey_injective_fields (q q' : JsString) (t t' : Z)
    (r r' l l' : option bool) (w w' : option Z) :
  generateQueryCacheKey q t r l w = generateQueryCacheKey q' t' r' l' w' <->
  simpleHash q = simpleHash q' /\ t = t' /\ flag_str r = flag_str r' /\
  flag_str l = flag_str l' /\ window_or_default w = window_or_default w'.
Proof.
  split.
  - unfold generateQueryCacheKey, generateCacheKey. cbn [map part_to_string join].
    intros H. apply append_cancel_l in H. cbn [String.append] in H. injection H as H.
    destruct (split_colon _ _ _ _ (no_colon_simpleHash q) (no_colon_simpleHash q') H)
      as [Hh H1].
    destruct (split_colon _ _ _ _ (no_colon_num t) (no_colon_num t') H1) as [Ht H2].
    assert (Hf : forall b, no_colon (flag_str b) = true)
      by (intros b; destruct (flag_str_cases b) as [-> | ->]; reflexivity).
    destruct (split_colon _ _ _ _ (Hf r) (Hf r') H2) as [Hr H3].
    destruct (split_colon _ _ _ _ (Hf l) (Hf l') H3) as [Hl Hw].
    apply js_num_to_string_inj in Ht, Hw. auto.
  - intros (Hh & Ht & Hr & Hl & Hw).
    unfold generateQueryCacheKey. rewrite Hh, Ht, Hr, Hl, Hw. reflexivity.
Qed.

(** C7: omitting [sentenceWindowSize] and passing [3] give the same key. *)
Theorem generateQueryCacheKey_default_window (q : JsString) (t : Z) (r l : option bool) :
  generateQueryCacheKey q t r l None = generateQueryCacheKey q t r l (Some 3).
Proof. reflexivity. Qed.

(** C9: an omitted rerank flag and an explicit [false] give the same key,
    for each of the two flags. *)
Theorem generateQueryCacheKey_absent_flag_is_false (q : JsString) (t : Z)
    (r l : option bool) (w : option Z) :
  generateQueryCacheKey q t None l w = generateQueryCacheKey q t (Some false) l w /\
  generateQueryCacheKey q t r None w = generateQueryCacheKey q t r (Some false) w.
Proof. split; reflexivity. Qed.

End KeyFacts.

(** ** [ipFromHeaders] *)

Module IpFacts.

Import RateLimit.

(** C10 (counterexample): with an empty [x-forwarded-for] header and
    [x-real-ip: 10.0.0.1], the result is not the (empty) first entry of
    [x-forwarded-for] but the [x-real-ip] value. *)
Definition headers_empty_xff : Headers :=
  fun n => if String.eqb n "x-forwarded-for" then Some ""%string
           else if String.eqb n "x-real-ip" then Some "10.0.0.1"%string else None.

Lemma ipFromHeaders_empty_xff :
  headers_empty_xff "x-forwarded-for"%string = Some ""%string /\
  ipFromHeaders headers_empty_xff = "10.0.0.1"%string /\
  ipFromHeaders headers_empty_xff <> trim (split_first "," "").
Proof. vm_compute. split; [reflexivity|split; [reflexivity|discriminate]]. Qed.

(** C10 (amended): the first comma-separated entry of [x-forwarded-for],
    trimmed, when that header is present and non-empty; otherwise
    [x-real-ip] when present and non-empty; otherwise "unknown".  A
    request with neither header gets "unknown", so all such requests share
    the bucket key ["chat:unknown"] of the chat endpoint. *)
Theorem ipFromHeaders_spec (h : Headers) :
  ipFromHeaders h =
    match h "x-forwarded-for"%string with
    | Some xff =>
        if String.eqb xff "" then
          match h "x-real-ip"%string with
          | Some xr => if String.eqb xr "" then "unknown"%string else xr
          | None => "unknown"%string
          end
        else trim (split_first "," xff)
    | None =>
        match h "x-real-ip"%string with
        | Some xr => if String.eqb xr "" then "unknown"%string else xr
        | None => "unknown"%string
        end
    end /\
  ipFromHeaders (fun _ => None) = "unknown"%string /\
  ("chat:" ++ ipFromHeaders (fun _ => None))%string = "chat:unknown"%string.
Proof.
  split; [|split; reflexivity].
  unfold ipFromHeaders, truthy_str.
  destruct (h "x-forwarded-for"%string) as [[|c s]|];
    destruct (h "x-real-ip"%string) as [[|c' s']|]; reflexivity.
Qed.

End IpFacts.

(** ** [MemoryCache] *)

Module CacheFacts.

Import Cache.

Section Facts.

Context {T : Type}.

Definition keys (m : list (string * CacheEntry T)) : list string := map fst m.

Lemma map_get_In (k : string) (e : CacheEntry T) m :
  map_get k m = Some e -> In (k, e) m.
Proof.
  induction m as [|[k' e'] m IH]; simpl; [discriminate|].
  destruct (String.eqb_spec k k') as [->|]; [intros [= ->]; left; reflexivity|].
  intros H. right. exact (IH H).
Qed.

Lemma In_map_get (k : string) (e : CacheEntry T) m :
  NoDup (keys m) -> In (k, e) m -> map_get k m = Some e.
Proof.
  induction m as [|[k' e'] m IH]; simpl; [contradiction|].
  intros Hnd Hin. inversion Hnd as [|? ? Hnotin Hnd']; subst.
  destruct Hin as [[= -> ->]|Hin].
  - rewrite String.eqb_refl. reflexivity.
  - destruct (String.eqb_spec k k') as [->|]; [|exact (IH Hnd' Hin)].
    exfalso. apply Hnotin. apply list_elem_of_In. apply (in_map fst _ _ Hin).
Qed.

Lemma keys_filter_nodup (f : string * CacheEntry T -> bool) m :
  NoDup (keys m) -> NoDup (keys (List.filter f m)).
Proof.
  induction m as [|[k e] m IH]; simpl; [auto|].
  intros Hnd. inversion Hnd as [|? ? Hnotin Hnd']; subst.
  destruct (f (k, e)); simpl; [|exact (IH Hnd')].
  constructor; [|exact (IH Hnd')].
  intros Hin. apply Hnotin. unfold keys in *.
  apply list_elem_of_In in Hin. apply list_elem_of_In.
  apply in_map_iff in Hin as [[k2 e2] [Hk Hin]]. simpl in Hk; subst.
  apply List.filter_In in Hin as [Hin _]. apply (in_map fst _ _ Hin).
Qed.

Lemma map_get_filter (k : string) (f : string * CacheEntry T -> bool) m :
  NoDup (keys m) ->
  map_get k (List.filter f m) =
    match map_get k m with Some e => if f (k, e) then Some e else None | None => None end.
Proof.
  intros Hnd.
  destruct (map_get k m) as [e|] eqn:He.
  - pose proof (map_get_In _ _ _ He) as Hin.
    destruct (f (k, e)) eqn:Hf.
    + apply In_map_get; [exact (keys_filter_nodup f m Hnd)|].
      apply List.filter_In. auto.
    + destruct (map_get k (List.filter f m)) as [e'|] eqn:He'; [|reflexivity].
      apply map_get_In, List.filter_In in He' as [Hin' Hf'].
      rewrite (In_map_get _ _ _ Hnd Hin') in He. injection He as ->. congruence.
  - destruct (map_get k (List.filter f m)) as [e'|] eqn:He'; [|reflexivity].
    apply map_get_In, List.filter_In in He' as [Hin' _].
    rewrite (In_map_get _ _ _ Hnd Hin') in He. discriminate.
Qed.

Lemma map_get_delete_same (k : string) m :
  NoDup (keys m) -> map_get k (map_delete k m) = None.
Proof.
  intros Hnd. unfold map_delete. rewrite map_get_filter by exact Hnd.
  destruct (map_get k m); [|reflexivity]. simpl. rewrite String.eqb_refl. reflexivity.
Qed.

Lemma map_get_delete_other (k k' : string) m :
  NoDup (keys m) -> k <> k' -> map_get k (map_delete k' m) = map_get k m.
Proof.
  intros Hnd Hne. unfold map_delete. rewrite map_get_filter by exact Hnd.
  destruct (map_get k m); [|reflexivity]. simpl.
  destruct (String.eqb_spec k' k); [congruence|reflexivity].
Qed.

Lemma map_get_replace (k k' : string) (e : CacheEntry T) m :
  map_get k (map_replace k' e m) =
    if String.eqb k k' then (if map_has k m then Some e else None) else map_get k m.
Proof.
  unfold map_has.
  induction m as [|[k2 e2] m IH]; simpl.
  - destruct (String.eqb k k'); reflexivity.
  - destruct (String.eqb_spec k' k2) as [<-|Hne]; simpl.
    + destruct (String.eqb_spec k k') as [->|]; reflexivity.
    + rewrite IH. destruct (String.eqb_spec k k2) as [->|]; [|reflexivity].
      destruct (String.eqb_spec k2 k') as [->|]; [congruence|reflexivity].
Qed.

Lemma map_get_app (k : string) (m1 m2 : list (string * CacheEntry T)) :
  map_get k (m1 ++ m2) = match map_get k m1 with Some e => Some e | None => map_get k m2 end.
Proof.
  induction m1 as [|[k1 e1] m1 IH]; simpl; [reflexivity|].
  destruct (String.eqb k k1); [reflexivity|exact IH].
Qed.

Lemma map_get_set (k k' : string) (e : CacheEntry T) m :
  map_get k (map_set k' e m) = if String.eqb k k' then Some e else map_get k m.
Proof.
  unfold map_set. destruct (map_has k' m) eqn:Hh.
  - rewrite map_get_replace. destruct (String.eqb_spec k k') as [->|]; [rewrite Hh|]; reflexivity.
  - rewrite map_get_app. unfold map_has in Hh.
    destruct (String.eqb_spec k k') as [->|Hne].
    + destruct (map_get k' m); [discriminate|]. simpl. rewrite String.eqb_refl. reflexivity.
    + destruct (map_get k m); [reflexivity|]. simpl.
      destruct (String.eqb_spec k k'); [congruence|reflexivity].
Qed.

Lemma keys_replace (k : string) (e : CacheEntry T) m : keys (map_replace k e m) = keys m.
Proof.
  unfold keys. induction m as [|[k2 e2] m IH]; simpl; [reflexivity|].
  destruct (String.eqb k k2); simpl; [reflexivity|]. rewrite IH. reflexivity.
Qed.

Lemma map_get_None_keys (k : string) m : map_get k m = None -> ~ In k (keys m).
Proof.
  induction m as [|[k2 e2] m IH]; simpl; [auto|].
  destruct (String.eqb_spec k k2) as [->|Hne]; [discriminate|].
  intros H [->|Hin]; [congruence|exact (IH H Hin)].
Qed.

Lemma keys_set_nodup (k : string) (e : CacheEntry T) m :
  NoDup (keys m) -> NoDup (keys (map_set k e m)).
Proof.
  intros Hnd. unfold map_set, map_has. destruct (map_get k m) eqn:Hg.
  - rewrite keys_replace. exact Hnd.
  - unfold keys. rewrite map_app. simpl. apply NoDup_app. split; [exact Hnd|split].
    + intros x Hx Hx'. apply list_elem_of_singleton in Hx'. subst x.
      apply (map_get_None_keys _ _ Hg). apply list_elem_of_In. exact Hx.
    + apply NoDup_singleton.
Qed.

Lemma evictOldest_nodup (c : MemoryCache T) now :
  NoDup (keys (cache c)) -> NoDup (keys (cache (evictOldest c now))).
Proof.
  intros Hnd. unfold evictOldest.
  destruct (find_oldest (cache c) None now) as [k|]; [|exact Hnd].
  destruct (String.eqb k ""); [exact Hnd|]. apply keys_filter_nodup. exact Hnd.
Qed.

Lemma set_nodup (c : MemoryCache T) k v ttl now :
  NoDup (keys (cache c)) -> NoDup (keys (cache (set c k v ttl now))).
Proof.
  intros Hnd. unfold set. simpl. apply keys_set_nodup.
  destruct (_ && _); [apply evictOldest_nodup|]; exact Hnd.
Qed.

Lemma step_nodup (c : MemoryCache T) op :
  NoDup (keys (cache c)) -> NoDup (keys (cache (step c op))).
Proof.
  intros Hnd. destruct op as [k v t now|k now|k now|k| |now]; simpl.
  - apply set_nodup. exact Hnd.
  - unfold get. destruct (map_get k (cache c)) as [e|]; [|exact Hnd].
    destruct (_ >? _); simpl; [apply keys_filter_nodup|apply keys_set_nodup]; exact Hnd.
  - unfold has. destruct (map_get k (cache c)) as [e|]; [|exact Hnd].
    destruct (_ >? _); simpl; [apply keys_filter_nodup|]; exact Hnd.
  - apply keys_filter_nodup. exact Hnd.
  - constructor.
  - apply keys_filter_nodup. exact Hnd.
Qed.

Lemma run_nodup (c : MemoryCache T) ops :
  NoDup (keys (cache c)) -> NoDup (keys (cache (run c ops))).
Proof.
  revert c. induction ops as [|op ops IH]; intros c Hnd; [exact Hnd|].
  simpl. apply IH. apply step_nodup. exact Hnd.
Qed.

Lemma reachable_nodup (m d : Z) ops : NoDup (keys (cache (run (newCache m d : MemoryCache T) ops))).
Proof. apply run_nodup. constructor. Qed.

(** Operations that only read: [get], [has] and the background
    [cleanup], each at a time no later than [now]. *)
Definition read_op_before (now : Z) (op : Op T) : bool :=
  match op with
  | OGet _ t | OHas _ t | OCleanup t => t <=? now
  | _ => false
  end.

(** The state of key [k] after [set k v] at [t0] with effective TTL [l]:
    still holding the value, or gone and expired at [now]. *)
Definition key_state (k : string) (v : T) (t0 l now : Z) (c : MemoryCache T) : Prop :=
  NoDup (keys (cache c)) /\
  ((exists h, map_get k (cache c) = Some (mkEntry v t0 l h)) \/
   (map_get k (cache c) = None /\ now - t0 > l)).

Lemma key_state_step k v t0 l now (c : MemoryCache T) op :
  read_op_before now op = true -> key_state k v t0 l now c -> key_state k v t0 l now (step c op).
Proof.
  intros Hop [Hnd Hst]. split; [apply step_nodup; exact Hnd|].
  destruct op as [k' v' t' n'|k' t|k' t|k'| |t]; simpl in Hop; try discriminate;
    apply Z.leb_le in Hop; simpl.
  - (* get *)
    unfold get. destruct (map_get k' (cache c)) as [e|] eqn:He; [|exact Hst].
    destruct (String.eqb_spec k k') as [<-|Hne].
    + destruct Hst as [[h Hh]|[Hn _]]; [|congruence].
      rewrite Hh in He. injection He as <-. simpl.
      destruct (t - t0 >? l) eqn:Hexp; simpl.
      * right. split; [apply map_get_delete_same; exact Hnd|]. apply Z.gtb_lt in Hexp. lia.
      * left. exists (h + 1). rewrite map_get_set, String.eqb_refl. reflexivity.
    + destruct (_ >? _); simpl.
      * rewrite map_get_delete_other by assumption. exact Hst.
      * rewrite map_get_set. destruct (String.eqb_spec k k'); [congruence|exact Hst].
  - (* has *)
    unfold has. destruct (map_get k' (cache c)) as [e|] eqn:He; [|exact Hst].
    destruct (t - timestamp e >? ttl e) eqn:Hexp; simpl; [|exact Hst].
    destruct (String.eqb_spec k k') as [<-|Hne].
    + destruct Hst as [[h Hh]|[Hn _]]; [|congruence].
      rewrite Hh in He. injection He as <-. simpl in Hexp.
      right. split; [apply map_get_delete_same; exact Hnd|]. apply Z.gtb_lt in Hexp. lia.
    + rewrite map_get_delete_other by assumption. exact Hst.
  - (* cleanup *)
    rewrite map_get_filter by exact Hnd.
    destruct Hst as [[h Hh]|[Hn Hexp]].
    + rewrite Hh. simpl. destruct (t - t0 >? l) eqn:Hx; simpl.
      * right. split; [reflexivity|]. apply Z.gtb_lt in Hx. lia.
      * left. exists h. reflexivity.
    + rewrite Hn. right. auto.
Qed.

Lemma key_state_run k v t0 l now (c : MemoryCache T) ops :
  forallb (read_op_before now) ops = true ->
  key_state k v t0 l now c -> key_state k v t0 l now (run c ops).
Proof.
  revert c. induction ops as [|op ops IH]; intros c Hops Hst; [exact Hst|].
  simpl in Hops. apply andb_prop in Hops as [Hop Hops].
  simpl. apply IH; [exact Hops|]. apply key_state_step; assumption.
Qed.

(** C2 (amended): in any reachable cache, after [set(k, v, ttl)] at time
    [t0] with effective TTL [l] ([ttl ?? defaultTtl]), followed by any
    reads ([get], [has]) of any keys and any background [cleanup] runs at
    times no later than [now], [get(k)] at [now] returns [v] exactly when
    [now - t0 <= l] and [null] when [now - t0 > l], whether or not the
    cleanup ran. *)
Theorem get_ttl_lazy_expiry (m d : Z) (ops0 : list (Op T)) (k : string) (v : T)
    (ttl : option Z) (t0 : Z) (reads : list (Op T)) (now : Z) :
  forallb (read_op_before now) reads = true ->
  let c := set (run (newCache m d) ops0) k v ttl t0 in
  let l := match ttl with Some x => x | None => d end in
  (get (run c reads) k now).2 = if now - t0 <=? l then Some v else None.
Proof.
  intros Hreads c l.
  assert (Hd : defaultTtl (run (newCache m d : MemoryCache T) ops0) = d).
  { generalize (newCache m d : MemoryCache T) (eq_refl d : defaultTtl (newCache m d : MemoryCache T) = d).
    induction ops0 as [|op ops IH]; intros c0 Hc0; [exact Hc0|].
    simpl. apply IH. destruct op; simpl;
      try (unfold get; destruct map_get; try destruct (_ >? _));
      try (unfold has; destruct map_get; try destruct (_ >? _));
      try (unfold set; destruct (_ && _); [unfold evictOldest; destruct find_oldest as [?|];
        [destruct String.eqb|]|]); simpl; assumption. }
  assert (Hst : key_state k v t0 l now c).
  { split; [apply set_nodup, reachable_nodup|].
    left. exists 0. unfold c, set, l. simpl. rewrite map_get_set, String.eqb_refl.
    destruct ttl; [reflexivity|]. rewrite Hd. reflexivity. }
  destruct (key_state_run k v t0 l now c reads Hreads Hst) as [_ [[h Hh]|[Hn Hexp]]].
  - unfold get. rewrite Hh. simpl.
    destruct (Z.gtb_spec (now - t0) l); destruct (Z.leb_spec (now - t0) l);
      try reflexivity; lia.
  - unfold get. rewrite Hn. simpl.
    destruct (now - t0 <=? l) eqn:H2; [apply Z.leb_le in H2; lia|reflexivity].
Qed.

Definition total (c : MemoryCache T) : Z := statHits c + statMisses c.

Lemma step_total (c : MemoryCache T) op :
  total (step c op) =
    match op with OGet _ _ => total c + 1 | OClear => 0 | _ => total c end.
Proof.
  unfold total. destruct op as [k v t now|k now|k now|k| |now]; simpl.
  - unfold set. destruct (_ && _); simpl; [|reflexivity].
    unfold evictOldest. destruct find_oldest; [destruct String.eqb|]; reflexivity.
  - unfold get. destruct map_get; [destruct (_ >? _)|]; simpl; lia.
  - unfold has. destruct map_get; [destruct (_ >? _)|]; reflexivity.
  - reflexivity.
  - reflexivity.
  - reflexivity.
Qed.

(** C5: along any trace of operations, [set], [has], [delete] and the
    background [cleanup] leave both counters unchanged; [hits + misses]
    as reported by [getStats] is the number of [get] calls since the last
    [clear] (plus the initial total when the trace has no [clear]; [0]
    for a new cache); [hitRate] is [hits / (hits + misses)], or [0] when
    that sum is [0]. *)
Theorem getStats_counts_gets (c : MemoryCache T) (ops : list (Op T)) :
  (forall (c0 : MemoryCache T) (op : Op T), match op with
                 | OGet _ _ | OClear => True
                 | _ => statHits (step c0 op) = statHits c0 /\
                        statMisses (step c0 op) = statMisses c0
                 end) /\
  let s := getStats (run c ops) in
  totalHits s + totalMisses s =
    (if has_clear ops then 0 else statHits c + statMisses c) + gets_since_clear ops /\
  hitRate s = (if totalHits s + totalMisses s >? 0
               then (inject_Z (totalHits s) / inject_Z (totalHits s + totalMisses s))%Q
               else 0%Q).
Proof.
  split.
  { intros c0 op. destruct op as [k v t now|k now|k now|k| |now]; simpl; auto.
    - unfold set. destruct (_ && _); simpl; [|auto].
      unfold evictOldest. destruct find_oldest; [destruct String.eqb|]; simpl; auto.
    - unfold has. destruct map_get; [destruct (_ >? _)|]; simpl; auto. }
  cbv zeta. split; [|reflexivity].
  change (totalHits (getStats (run c ops)) + totalMisses (getStats (run c ops)))
    with (total (run c ops)).
  change (statHits c + statMisses c) with (total c).
  revert c. induction ops as [|op ops IH]; intros c; [simpl; lia|].
  simpl run. rewrite IH, step_total.
  unfold has_clear. simpl existsb. cbn [gets_since_clear].
  destruct (existsb _ ops) eqn:Hc.
  - rewrite orb_true_r. reflexivity.
  - rewrite orb_false_r. destruct op; simpl; lia.
Qed.

End Facts.

(** C1 (code defect): [evictOldest] starts from [Date.now()] and only
    picks an entry with a strictly smaller timestamp, and skips a falsy
    (empty) key.  A cache of capacity 1 that receives two new keys in the
    same millisecond, or whose only entry has the key "", ends up with two
    entries. *)
Lemma set_capacity_exceeded :
  let c1 := set (set (newCache 1 300000) "a" 1%nat None 0) "b" 2%nat None 0 in
  let c2 := set (set (newCache 1 300000) "" 1%nat None 0) "b" 2%nat None 5 in
  maxSize c1 = 1 /\ length (cache c1) = 2%nat /\
  maxSize c2 = 1 /\ length (cache c2) = 2%nat.
Proof. vm_compute. auto. Qed.

(** C2 (counterexample): an entry set at time 0 with TTL 100 is still
    returned by [get] at time 100, where [now - createdAt >= ttl]. *)
Lemma get_at_ttl_boundary :
  100 - 0 >= 100 /\
  (get (set (newCache 500 300000) "k" 42%nat (Some 100) 0) "k" 100).2 = Some 42%nat.
Proof. split; [lia|reflexivity]. Qed.

Lemma get_ttl_lazy_expiry_witness :
  (get (run (set (run (newCache 500 300000) [OSet "x" 7%nat None 0; OGet "x" 10])
                 "k" 42%nat (Some 100) 20)
            [OGet "k" 50; OCleanup 110; OHas "x" 115]) "k" 120).2
  = (if 120 - 20 <=? 100 then Some 42%nat else None).
Proof.
  exact (get_ttl_lazy_expiry 500 300000 [OSet "x" 7%nat None 0; OGet "x" 10]
           "k" 42%nat (Some 100) 20 [OGet "k" 50; OCleanup 110; OHas "x" 115] 120 eq_refl).
Defined.

End CacheFacts.

(** ** The chat handler and [withResponseCache] *)

Module ChatFacts.

Import RateLimit Cache Keys Chat.

(** C8 (amended): when the backend call fails (a non-ok status, or a
    body that is not JSON), the chat handler never calls
    [responseCache.set]: the cache afterwards is the cache before, or the
    cache as left by the single lookup [responseCache.get(cacheKey)]
    (which removes an expired entry under that key and counts a miss, or
    counts a hit when the value is served from the cache).  Likewise
    [withResponseCache] leaves the cache as left by its lookup when the
    handler's response is not ok. *)
Theorem chat_POST_failure_not_cached (st : ServerState) (ip : string)
    (body : option ChatRequest) (backend : Backend) (now t_resp : Z)
    (c : MemoryCache CachedValue) (key : string) (ttl : option Z) (resp : Response) :
  (forall a srcs, backend <> BackendOk a srcs) ->
  ok resp = false ->
  (responseCache (chat_POST st ip body backend now t_resp).1 = responseCache st \/
   exists req, body = Some req /\
     responseCache (chat_POST st ip body backend now t_resp).1
     = (get (responseCache st) (chat_cache_key req) now).1) /\
  (withResponseCache c key ttl resp now t_resp).1 = (get c key now).1.
Proof.
  intros Hbk Hok. split.
  - unfold chat_POST.
    destruct (rateLimit (buckets st) ("chat:" ++ ip)%string 60 60000 now) as [bs1 rl].
    destruct (negb (allowed rl)); [left; reflexivity|].
    destruct body as [req|]; [|left; reflexivity].
    simpl.
    destruct (get (responseCache st) _ now) as [c1 cached] eqn:Hg.
    right. exists req. split; [reflexivity|]. rewrite Hg.
    destruct cached; [reflexivity|].
    destruct backend as [a srcs| |]; [exfalso; exact (Hbk a srcs eq_refl)|reflexivity|reflexivity].
  - unfold withResponseCache. destruct (get c key now) as [c1 cached].
    destruct cached; [reflexivity|]. rewrite Hok. reflexivity.
Qed.

Definition sample_request : ChatRequest :=
  mkChatRequest (js "What was the revenue in 2023?") None None None None.

Definition sample_key : string :=
  generateQueryCacheKey (js "What was the revenue in 2023?") 5 None None None.

(** A server whose response cache holds an answer for [sample_key]
    stored at time 0 with the 5-minute TTL. *)
Definition sample_state : ServerState :=
  mkServer ∅ (set (newCache 500 300000) sample_key (CachedChat "42" []) (Some 300000) 0).

(** C8 (counterexample): at time 400000 that entry has expired; the
    backend answers 500; the response is an error and nothing is stored,
    but the cache entries are not those before the request: the lookup
    removed the expired entry. *)
Lemma chat_POST_failure_changes_entries :
  let '(st', resp) := chat_POST sample_state "10.0.0.1" (Some sample_request)
                        (BackendNotOk 500) 400000 400050 in
  status resp = 502 /\
  cache (responseCache st') = [] /\
  cache (responseCache st') <> cache (responseCache sample_state).
Proof. vm_compute. split; [reflexivity|split; [reflexivity|discriminate]]. Qed.

Lemma chat_POST_failure_not_cached_witness :
  (responseCache (chat_POST sample_state "10.0.0.1" (Some sample_request)
                    (BackendNotOk 500) 400000 400050).1 = responseCache sample_state \/
   exists req, Some sample_request = Some req /\
     responseCache (chat_POST sample_state "10.0.0.1" (Some sample_request)
                      (BackendNotOk 500) 400000 400050).1
     = (get (responseCache sample_state) (chat_cache_key req) 400000).1) /\
  (withResponseCache (responseCache sample_state) sample_key None
     (error_response 500) 400000 400050).1
  = (get (responseCache sample_state) sample_key 400000).1.
Proof.
  apply (chat_POST_failure_not_cached sample_state "10.0.0.1" (Some sample_request)
           (BackendNotOk 500) 400000 400050 (responseCache sample_state) sample_key None
           (error_response 500)).
  - intros a srcs. discriminate.
  - reflexivity.
Defined.

End ChatFacts.

(** ** Further properties of [MemoryCache] *)

Module CacheExtra.

Import Cache CacheFacts.

Section Extra.

Context {T : Type}.

Lemma find_oldest_some (m : list (string * CacheEntry T)) o t k :
  find_oldest m o t = Some k ->
  (o = Some k /\ forall p, In p m -> t <= timestamp p.2) \/
  (exists e, In (k, e) m /\ timestamp e < t /\ forall p, In p m -> timestamp e <= timestamp p.2).
Proof.
  revert o t. induction m as [|[k1 e1] m IH]; intros o t H; simpl in H.
  - left. split; [exact H|]. intros p [].
  - destruct (Z.ltb_spec (timestamp e1) t) as [Hlt|Hge].
    + destruct (IH _ _ H) as [[[= ->] Hall]|(e & Hin & Hlt' & Hall)].
      * right. exists e1. split; [left; reflexivity|]. split; [exact Hlt|].
        intros p [<-|Hp]; [simpl; lia|exact (Hall p Hp)].
      * right. exists e. split; [right; exact Hin|]. split; [lia|].
        intros p [<-|Hp]; [simpl; lia|exact (Hall p Hp)].
    + destruct (IH _ _ H) as [[-> Hall]|(e & Hin & Hlt' & Hall)].
      * left. split; [reflexivity|]. intros p [<-|Hp]; [simpl; lia|exact (Hall p Hp)].
      * right. exists e. split; [right; exact Hin|]. split; [exact Hlt'|].
        intros p [<-|Hp]; [simpl; lia|exact (Hall p Hp)].
Qed.

Lemma find_oldest_from_some (m : list (string * CacheEntry T)) k t :
  find_oldest m (Some k) t <> None.
Proof.
  revert k t. induction m as [|[k1 e1] m IH]; intros k t; simpl; [discriminate|].
  destruct (timestamp e1 <? t); apply IH.
Qed.

Lemma find_oldest_none (m : list (string * CacheEntry T)) o t :
  find_oldest m o t = None -> forall p, In p m -> t <= timestamp p.2.
Proof.
  revert o t. induction m as [|[k1 e1] m IH]; intros o t H p Hp; [destruct Hp|].
  simpl in H. destruct (Z.ltb_spec (timestamp e1) t) as [Hlt|Hge].
  - exfalso. exact (find_oldest_from_some _ _ _ H).
  - destruct Hp as [<-|Hp]; [simpl; lia|exact (IH _ _ H p Hp)].
Qed.

Lemma map_delete_absent (k : string) (m : list (string * CacheEntry T)) :
  ~ In k (keys m) -> map_delete k m = m.
Proof.
  induction m as [|[k1 e1] m IH]; simpl; [reflexivity|]. intros Hn.
  destruct (String.eqb_spec k k1) as [->|Hne]; [exfalso; apply Hn; left; reflexivity|].
  simpl. f_equal. apply IH. intros Hin. apply Hn. right. exact Hin.
Qed.

Lemma map_delete_cons (k k1 : string) (e1 : CacheEntry T) m :
  map_delete k ((k1, e1) :: m) =
  if String.eqb k k1 then map_delete k m else (k1, e1) :: map_delete k m.
Proof. unfold map_delete. simpl. destruct (String.eqb k k1); reflexivity. Qed.

Lemma length_map_delete_present (k : string) (e : CacheEntry T) m :
  NoDup (keys m) -> map_get k m = Some e -> length (map_delete k m) = pred (length m).
Proof.
  induction m as [|[k1 e1] m IH]; intros Hnd Hg; [discriminate|].
  rewrite map_delete_cons. simpl in Hg.
  inversion Hnd as [|? ? Hnotin Hnd']; subst.
  destruct (String.eqb_spec k k1) as [->|Hne].
  - rewrite map_delete_absent; [reflexivity|].
    intros Hin. apply Hnotin. apply list_elem_of_In. exact Hin.
  - simpl. rewrite (IH Hnd' Hg).
    destruct m; [simpl in Hg; discriminate|reflexivity].
Qed.

Lemma length_map_replace (k : string) (e : CacheEntry T) m :
  length (map_replace k e m) = length m.
Proof.
  induction m as [|[k1 e1] m IH]; simpl; [reflexivity|].
  destruct (String.eqb k k1); simpl; [reflexivity|]. rewrite IH. reflexivity.
Qed.

Lemma length_map_set (k : string) (e : CacheEntry T) m :
  length (map_set k e m) = if map_has k m then length m else S (length m).
Proof.
  unfold map_set. destruct (map_has k m); [apply length_map_replace|].
  rewrite length_app. simpl. lia.
Qed.

Lemma map_has_delete_other (k k0 : string) (m : list (string * CacheEntry T)) :
  NoDup (keys m) -> map_has k m = false -> map_has k (map_delete k0 m) = false.
Proof.
  intros Hnd Hh. unfold map_has in *. unfold map_delete.
  rewrite map_get_filter by exact Hnd. destruct (map_get k m); [discriminate|reflexivity].
Qed.

(** The eviction performed by [set] on a full cache, when every stored
    key is non-empty and every stored timestamp is earlier than [now]. *)
Lemma set_full_evicts (c : MemoryCache T) now :
  NoDup (keys (cache c)) ->
  (forall p, In p (cache c) -> p.1 <> ""%string /\ timestamp p.2 < now) ->
  cache c <> [] ->
  exists k0 e0, map_get k0 (cache c) = Some e0 /\
    (forall p, In p (cache c) -> timestamp e0 <= timestamp p.2) /\
    cache (evictOldest c now) = map_delete k0 (cache c).
Proof.
  intros Hnd Hall Hne. unfold evictOldest.
  destruct (find_oldest (cache c) None now) as [k0|] eqn:Hf.
  - destruct (find_oldest_some _ _ _ _ Hf) as [[[=] _]|(e0 & Hin & _ & Hmin)].
    destruct (String.eqb_spec k0 "") as [->|Hk0].
    + exfalso. destruct (Hall _ Hin) as [Hk _]. apply Hk. reflexivity.
    + exists k0, e0. split; [apply In_map_get; assumption|]. split; [exact Hmin|reflexivity].
  - exfalso. destruct (cache c) as [|p m] eqn:Hc; [apply Hne; reflexivity|].
    pose proof (find_oldest_none _ _ _ Hf p (or_introl eq_refl)) as H1.
    destruct (Hall p (or_introl eq_refl)) as [_ H2]. lia.
Qed.

(** [set] keeps the number of entries within [maxSize] when the clock
    has moved past every stored timestamp and no key is empty. *)
Theorem set_keeps_capacity (c : MemoryCache T) k v ttl now :
  1 <= maxSize c -> Z.of_nat (length (cache c)) <= maxSize c -> NoDup (keys (cache c)) ->
  (forall p, In p (cache c) -> p.1 <> ""%string /\ timestamp p.2 < now) ->
  Z.of_nat (length (cache (set c k v ttl now))) <= maxSize c.
Proof.
  intros Hm Hlen Hnd Hall. unfold set. simpl.
  destruct (map_has k (cache c)) eqn:Hh.
  - rewrite andb_false_r. simpl. rewrite length_map_set, Hh. exact Hlen.
  - rewrite andb_true_r. destruct (Z.leb_spec (maxSize c) (Z.of_nat (length (cache c)))) as [Hfull|Hlt].
    + assert (Hne : cache c <> []) by (intros Hc; rewrite Hc in Hfull; simpl in Hfull; lia).
      destruct (set_full_evicts c now Hnd Hall Hne) as (k0 & e0 & Hg & _ & He).
      rewrite He, length_map_set.
      rewrite (map_has_delete_other k k0 _ Hnd Hh).
      rewrite (length_map_delete_present k0 e0 _ Hnd Hg).
      destruct (cache c); [simpl in Hg; discriminate|simpl in *; lia].
    + simpl. rewrite length_map_set, Hh. lia.
Qed.

(** A [set] of a new key on a full cache, when every stored key is
    non-empty and every stored timestamp is earlier than [now], removes
    exactly one entry, one with the earliest timestamp, and appends the
    new entry. *)
Theorem set_full_evicts_oldest (c : MemoryCache T) k v ttl now :
  1 <= maxSize c -> maxSize c <= Z.of_nat (length (cache c)) -> NoDup (keys (cache c)) ->
  (forall p, In p (cache c) -> p.1 <> ""%string /\ timestamp p.2 < now) ->
  map_has k (cache c) = false ->
  exists k0 e0, map_get k0 (cache c) = Some e0 /\
    (forall p, In p (cache c) -> timestamp e0 <= timestamp p.2) /\
    cache (set c k v ttl now) =
      map_set k (mkEntry v now (match ttl with Some t => t | None => defaultTtl c end) 0)
        (map_delete k0 (cache c)).
Proof.
  intros Hm Hfull Hnd Hall Hh.
  assert (Hne : cache c <> []) by (intros Hc; rewrite Hc in Hfull; simpl in Hfull; lia).
  destruct (set_full_evicts c now Hnd Hall Hne) as (k0 & e0 & Hg & Hmin & He).
  exists k0, e0. split; [exact Hg|]. split; [exact Hmin|].
  unfold set. rewrite Hh. rewrite (proj2 (Z.leb_le _ _) Hfull). simpl.
  rewrite He. reflexivity.
Qed.

(** [set] on a key already present never evicts: the keys and their
    order are unchanged, the entry is replaced by a fresh one (timestamp
    [now], [hits = 0]) and every other entry is untouched. *)
Theorem set_existing_key (c : MemoryCache T) k v ttl now :
  map_has k (cache c) = true ->
  keys (cache (set c k v ttl now)) = keys (cache c) /\
  map_get k (cache (set c k v ttl now)) =
    Some (mkEntry v now (match ttl with Some t => t | None => defaultTtl c end) 0) /\
  (forall k', k' <> k -> map_get k' (cache (set c k v ttl now)) = map_get k' (cache c)).
Proof.
  intros Hh. unfold set. rewrite Hh, andb_false_r. simpl.
  split; [unfold map_set; rewrite Hh; apply keys_replace|].
  split; [rewrite map_get_set, String.eqb_refl; reflexivity|].
  intros k' Hne. rewrite map_get_set. destruct (String.eqb_spec k' k); [congruence|reflexivity].
Qed.

Lemma map_has_set_same (k : string) (e : CacheEntry T) m :
  map_has k m = true -> keys (map_set k e m) = keys m.
Proof. intros Hh. unfold map_set. rewrite Hh. apply keys_replace. Qed.

(** [has] answers [true] exactly when [get] would return a value, leaves
    the same keys behind as [get] (an expired entry is removed by both)
    and never changes the hit and miss counters. *)
Theorem has_agrees_with_get (c : MemoryCache T) k now :
  (has c k now).2 = match (get c k now).2 with Some _ => true | None => false end /\
  keys (cache (has c k now).1) = keys (cache (get c k now).1) /\
  statHits (has c k now).1 = statHits c /\ statMisses (has c k now).1 = statMisses c.
Proof.
  unfold has, get. destruct (map_get k (cache c)) as [e|] eqn:Hg; [|simpl; auto].
  destruct (now - timestamp e >? ttl e); simpl; [auto|].
  split; [reflexivity|]. split; [|auto].
  symmetry. apply map_has_set_same. unfold map_has. rewrite Hg. reflexivity.
Qed.

Lemma map_get_delete_self (k : string) (m : list (string * CacheEntry T)) :
  map_get k (map_delete k m) = None.
Proof.
  induction m as [|[k1 e1] m IH]; [reflexivity|].
  rewrite map_delete_cons. destruct (String.eqb_spec k k1) as [->|Hne]; [exact IH|].
  simpl. destruct (String.eqb_spec k k1); [congruence|exact IH].
Qed.

(** [delete(k)] reports whether [k] was stored (expired or not); after it
    [get(k)] is a miss at any time and counts one miss. *)
Theorem delete_then_get (c : MemoryCache T) k now :
  (delete c k).2 = map_has k (cache c) /\
  (get (delete c k).1 k now).2 = None /\
  statMisses (get (delete c k).1 k now).1 = statMisses c + 1 /\
  statHits (get (delete c k).1 k now).1 = statHits c.
Proof.
  unfold delete, get. simpl. rewrite map_get_delete_self. simpl. auto.
Qed.

(** [cleanup] at time [now] is invisible to [get]: at [now] or any later
    time, [get(k)] returns the same value and counts the same hit or
    miss whether or not the cleanup ran. *)
Theorem cleanup_invisible_to_get (c : MemoryCache T) now now' k :
  NoDup (keys (cache c)) -> now <= now' ->
  (get (cleanup c now) k now').2 = (get c k now').2 /\
  statHits (get (cleanup c now) k now').1 = statHits (get c k now').1 /\
  statMisses (get (cleanup c now) k now').1 = statMisses (get c k now').1.
Proof.
  intros Hnd Hle. unfold get, cleanup. simpl.
  rewrite map_get_filter by exact Hnd.
  destruct (map_get k (cache c)) as [e|]; simpl; [|auto].
  destruct (Z.gtb_spec (now - timestamp e) (ttl e)) as [Hx|Hx]; simpl.
  - destruct (Z.gtb_spec (now' - timestamp e) (ttl e)); simpl; [auto|lia].
  - destruct (now' - timestamp e >? ttl e); simpl; auto.
Qed.

End Extra.

(** A full two-entry cache used by the witnesses below. *)
Definition sample_full : MemoryCache nat :=
  mkCache [("a", mkEntry 1%nat 100 50 0); ("b", mkEntry 2%nat 90 50 3)] 2 300 0 0.

Lemma sample_full_nodup : NoDup (keys (cache sample_full)).
Proof. vm_compute. apply NoDup_cons. split; [rewrite list_elem_of_singleton; discriminate|apply NoDup_singleton]. Qed.

Lemma sample_full_before (p : string * CacheEntry nat) :
  In p (cache sample_full) -> p.1 <> ""%string /\ timestamp p.2 < 200.
Proof. simpl. intros [<-|[<-|[]]]; simpl; split; (discriminate || lia). Qed.

Lemma set_keeps_capacity_witness :
  Z.of_nat (length (cache (set sample_full "c" 3%nat None 200))) <= maxSize sample_full.
Proof.
  apply (set_keeps_capacity sample_full "c" 3%nat None 200).
  - vm_compute. discriminate.
  - vm_compute. discriminate.
  - exact sample_full_nodup.
  - exact sample_full_before.
Defined.

Lemma set_full_evicts_oldest_witness :
  exists k0 e0, map_get k0 (cache sample_full) = Some e0 /\
    (forall p, In p (cache sample_full) -> timestamp e0 <= timestamp p.2) /\
    cache (set sample_full "c" 3%nat None 200) =
      map_set "c" (mkEntry 3%nat 200 (defaultTtl sample_full) 0)
        (map_delete k0 (cache sample_full)).
Proof.
  apply (set_full_evicts_oldest sample_full "c" 3%nat None 200).
  - vm_compute. discriminate.
  - vm_compute. discriminate.
  - exact sample_full_nodup.
  - exact sample_full_before.
  - reflexivity.
Defined.

Lemma set_existing_key_witness :
  keys (cache (set sample_full "b" 7%nat (Some 10) 200)) = keys (cache sample_full) /\
  map_get "b" (cache (set sample_full "b" 7%nat (Some 10) 200)) = Some (mkEntry 7%nat 200 10 0) /\
  (forall k', k' <> "b"%string ->
     map_get k' (cache (set sample_full "b" 7%nat (Some 10) 200)) = map_get k' (cache sample_full)).
Proof. apply (set_existing_key sample_full "b" 7%nat (Some 10) 200). reflexivity. Defined.

Lemma cleanup_invisible_to_get_witness :
  (get (cleanup sample_full 145) "b" 150).2 = (get sample_full "b" 150).2 /\
  statHits (get (cleanup sample_full 145) "b" 150).1 = statHits (get sample_full "b" 150).1 /\
  statMisses (get (cleanup sample_full 145) "b" 150).1 = statMisses (get sample_full "b" 150).1.
Proof.
  apply (cleanup_invisible_to_get sample_full 145 150 "b").
  - exact sample_full_nodup.
  - lia.
Defined.

End CacheExtra.

(** ** [cached] and [cachedAsync] *)

Module WrapperFacts.

Import Cache CacheFacts Wrappers.

Section Facts.

Context {A V : Type}.
Variable fn : A -> option V.
Variable keyGenerator : A -> string.

Lemma get_after_set {T : Type} (c : MemoryCache T) k x ttl t now :
  (get (set c k x ttl t) k now).2 =
    if now - t >? match ttl with Some l => l | None => defaultTtl c end then None else Some x.
Proof.
  unfold get, set. simpl. rewrite map_get_set, String.eqb_refl. simpl.
  destruct (_ >? _); reflexivity.
Qed.

Lemma get_after_set_stats {T : Type} (c : MemoryCache T) k x ttl t now :
  now - t <= match ttl with Some l => l | None => defaultTtl c end ->
  statHits (get (set c k x ttl t) k now).1 = statHits (set c k x ttl t) + 1.
Proof.
  intros Hle. unfold get. simpl (cache (set c k x ttl t)).
  unfold set at 1. simpl. rewrite map_get_set, String.eqb_refl. simpl.
  destruct (Z.gtb_spec (now - t) (match ttl with Some l => l | None => defaultTtl c end));
    [lia|reflexivity].
Qed.

Lemma defaultTtl_get {T : Type} (c : MemoryCache T) k now :
  defaultTtl (get c k now).1 = defaultTtl c.
Proof. unfold get. destruct map_get; [destruct (_ >? _)|]; reflexivity. Qed.

(** [cached]: after a call that ran [fn] and got a non-null value [v],
    a call with arguments of the same key while the entry is fresh
    returns [v] without running [fn]. *)
Theorem cached_serves_second_call (c : MemoryCache (option V)) ttl args args' t t' v :
  fn args = Some v ->
  (cached fn keyGenerator c ttl args t).2 = true ->
  keyGenerator args' = keyGenerator args ->
  t' - t <= match ttl with Some l => l | None => defaultTtl c end ->
  (cached fn keyGenerator (cached fn keyGenerator c ttl args t).1.1 ttl args' t').1.2 = Some v /\
  (cached fn keyGenerator (cached fn keyGenerator c ttl args t).1.1 ttl args' t').2 = false.
Proof.
  intros Hfn Hcalled Hk Hfresh. unfold cached in *.
  destruct (get c (keyGenerator args) t) as [c1 hit] eqn:Hg.
  assert (Hd : defaultTtl c1 = defaultTtl c)
    by (rewrite <- (defaultTtl_get c (keyGenerator args) t), Hg; reflexivity).
  destruct hit as [[w|]|]; simpl in Hcalled; [discriminate| |];
    simpl; rewrite Hk; pose proof (get_after_set c1 (keyGenerator args) (fn args) ttl t t') as Hs;
    destruct (get (set c1 (keyGenerator args) (fn args) ttl t) (keyGenerator args) t') as [c2 hit2];
    simpl in Hs; rewrite Hd in Hs;
    (destruct (Z.gtb_spec (t' - t) (match ttl with Some l => l | None => defaultTtl c end)); [lia|]);
    subst hit2; rewrite Hfn; auto.
Qed.

(** [cached]: a [null] result is stored but never served: a later call
    with the same key while the entry is fresh counts a cache hit and
    still runs [fn] again. *)
Theorem cached_null_recomputed (c : MemoryCache (option V)) ttl args args' t t' :
  fn args = None ->
  (cached fn keyGenerator c ttl args t).2 = true ->
  keyGenerator args' = keyGenerator args ->
  t' - t <= match ttl with Some l => l | None => defaultTtl c end ->
  (cached fn keyGenerator (cached fn keyGenerator c ttl args t).1.1 ttl args' t').2 = true /\
  statHits (get (cached fn keyGenerator c ttl args t).1.1 (keyGenerator args') t').1 =
    statHits (cached fn keyGenerator c ttl args t).1.1 + 1.
Proof.
  intros Hfn Hcalled Hk Hfresh. unfold cached in *.
  destruct (get c (keyGenerator args) t) as [c1 hit] eqn:Hg.
  assert (Hd : defaultTtl c1 = defaultTtl c)
    by (rewrite <- (defaultTtl_get c (keyGenerator args) t), Hg; reflexivity).
  destruct hit as [[w|]|]; simpl in Hcalled; [discriminate| |];
    simpl; rewrite Hk; rewrite Hfn in *;
    pose proof (get_after_set c1 (keyGenerator args) None ttl t t') as Hs;
    (split; [|apply get_after_set_stats; rewrite Hd; exact Hfresh]);
    destruct (get (set c1 (keyGenerator args) None ttl t) (keyGenerator args) t') as [c2 hit2];
    simpl in Hs; subst hit2; destruct (_ >? _); reflexivity.
Qed.

(** [cachedAsync]: the entry is stamped when [fn]'s promise resolves
    ([now_set]), not when the call started; a later call with the same
    key is served from the cache without running [fn] while
    [t' - now_set] is within the TTL. *)
Theorem cachedAsync_serves_second_call (c : MemoryCache (option V)) ttl args args'
    t t_set t' t'_set v :
  fn args = Some v ->
  (cachedAsync fn keyGenerator c ttl args t t_set).2 = true ->
  keyGenerator args' = keyGenerator args ->
  t' - t_set <= match ttl with Some l => l | None => defaultTtl c end ->
  (cachedAsync fn keyGenerator (cachedAsync fn keyGenerator c ttl args t t_set).1.1
     ttl args' t' t'_set).1.2 = Some v /\
  (cachedAsync fn keyGenerator (cachedAsync fn keyGenerator c ttl args t t_set).1.1
     ttl args' t' t'_set).2 = false.
Proof.
  intros Hfn Hcalled Hk Hfresh. unfold cachedAsync in *.
  destruct (get c (keyGenerator args) t) as [c1 hit] eqn:Hg.
  assert (Hd : defaultTtl c1 = defaultTtl c)
    by (rewrite <- (defaultTtl_get c (keyGenerator args) t), Hg; reflexivity).
  destruct hit as [[w|]|]; simpl in Hcalled; [discriminate| |];
    simpl; rewrite Hk; pose proof (get_after_set c1 (keyGenerator args) (fn args) ttl t_set t') as Hs;
    destruct (get (set c1 (keyGenerator args) (fn args) ttl t_set) (keyGenerator args) t') as [c2 hit2];
    simpl in Hs; rewrite Hd in Hs;
    (destruct (Z.gtb_spec (t' - t_set) (match ttl with Some l => l | None => defaultTtl c end)); [lia|]);
    subst hit2; rewrite Hfn; auto.
Qed.

End Facts.


(** A function and key generator used by the witnesses below. *)
Definition double (x : Z) : option Z := Some (2 * x).
Definition always_null (x : Z) : option Z := None.
Definition one_key (x : Z) : string := "k".

Lemma cached_serves_second_call_witness :
  (cached double one_key (cached double one_key (newCache 10 1000) None 5 0).1.1 None 5 500).1.2
    = Some 10 /\
  (cached double one_key (cached double one_key (newCache 10 1000) None 5 0).1.1 None 5 500).2
    = false.
Proof.
  apply (cached_serves_second_call double one_key (newCache 10 1000) None 5 5 0 500 10);
    [reflexivity|reflexivity|reflexivity|cbn; lia].
Defined.

Lemma cached_null_recomputed_witness :
  (cached always_null one_key (cached always_null one_key (newCache 10 1000) None 5 0).1.1
     None 5 500).2 = true /\
  statHits (get (cached always_null one_key (newCache 10 1000) None 5 0).1.1 (one_key 5) 500).1 =
    statHits (cached always_null one_key (newCache 10 1000) None 5 0).1.1 + 1.
Proof.
  apply (cached_null_recomputed always_null one_key (newCache 10 1000) None 5 5 0 500);
    [reflexivity|reflexivity|reflexivity|cbn; lia].
Defined.

Lemma cachedAsync_serves_second_call_witness :
  (cachedAsync double one_key (cachedAsync double one_key (newCache 10 1000) None 5 0 800).1.1
     None 5 1700 1700).1.2 = Some 10 /\
  (cachedAsync double one_key (cachedAsync double one_key (newCache 10 1000) None 5 0 800).1.1
     None 5 1700 1700).2 = false.
Proof.
  apply (cachedAsync_serves_second_call double one_key (newCache 10 1000) None 5 5 0 800 1700 1700 10);
    [reflexivity|reflexivity|reflexivity|cbn; lia].
Defined.

End WrapperFacts.

(** ** Response caching in the chat handler and [withResponseCache] *)

Module ChatExtra.

Import RateLimit Cache CacheFacts Keys Chat WrapperFacts.


(** The chat handler: after a request that missed the cache and got an
    answer from the backend at [t_resp], a request with the same cache
    key within five minutes of [t_resp] that passes the rate limit is
    answered with the stored answer and sources, whatever the backend
    would now return. *)
Theorem chat_POST_serves_repeat (st : ServerState) ip ip2 req req2 a srcs backend2
    now t_resp now2 t_resp2 :
  allowed (rateLimit (buckets st) ("chat:" ++ ip)%string 60 60000 now).2 = true ->
  (get (responseCache st) (chat_cache_key req) now).2 = None ->
  allowed (rateLimit (buckets (chat_POST st ip (Some req) (BackendOk a srcs) now t_resp).1)
             ("chat:" ++ ip2)%string 60 60000 now2).2 = true ->
  chat_cache_key req2 = chat_cache_key req ->
  now2 - t_resp <= 300000 ->
  (chat_POST (chat_POST st ip (Some req) (BackendOk a srcs) now t_resp).1
     ip2 (Some req2) backend2 now2 t_resp2).2 = json_response (CachedChat a srcs).
Proof.
  intros Hrl Hmiss Hrl2 Hk Hfresh.
  assert (HE : chat_POST st ip (Some req) (BackendOk a srcs) now t_resp =
    (mkServer (rateLimit (buckets st) ("chat:" ++ ip)%string 60 60000 now).1
       (set (get (responseCache st) (chat_cache_key req) now).1 (chat_cache_key req)
          (CachedChat a srcs) (Some 300000) t_resp),
     json_response (CachedChat a srcs))).
  { unfold chat_POST.
    destruct (rateLimit (buckets st) ("chat:" ++ ip)%string 60 60000 now) as [bs1 rl].
    simpl in Hrl. rewrite Hrl. simpl.
    destruct (get (responseCache st) (chat_cache_key req) now) as [c1 hit].
    simpl in Hmiss. subst hit. reflexivity. }
  rewrite HE in Hrl2 |- *. simpl in Hrl2.
  set (c1 := (get (responseCache st) (chat_cache_key req) now).1).
  set (bs1 := (rateLimit (buckets st) ("chat:" ++ ip)%string 60 60000 now).1) in *.
  unfold chat_POST. simpl.
  destruct (rateLimit bs1 ("chat:" ++ ip2)%string 60 60000 now2) as [bs2 rl2]. simpl in *.
  rewrite Hrl2. simpl. rewrite Hk.
  pose proof (get_after_set c1 (chat_cache_key req) (CachedChat a srcs) (Some 300000)
                t_resp now2) as Hs.
  destruct (get (set c1 (chat_cache_key req) _ (Some 300000) t_resp) (chat_cache_key req) now2)
    as [c2 hit2].
  simpl in Hs. destruct (Z.gtb_spec (now2 - t_resp) 300000); [lia|]. subst hit2. reflexivity.
Qed.




Definition revenue_request (k : option Z) : ChatRequest :=
  mkChatRequest (js "Revenue in 2023?") k None None None.

Lemma chat_POST_serves_repeat_witness :
  (chat_POST (chat_POST (mkServer ∅ (newCache 500 300000)) "10.0.0.1" (Some (revenue_request None))
                (BackendOk "42" ["10-K"]) 0 20).1
     "10.0.0.2" (Some (revenue_request (Some 5))) (BackendNotOk 503) 1000 1010).2
  = json_response (CachedChat "42" ["10-K"]).
Proof.
  apply (chat_POST_serves_repeat (mkServer ∅ (newCache 500 300000)) "10.0.0.1" "10.0.0.2"
           (revenue_request None) (revenue_request (Some 5)) "42" ["10-K"] (BackendNotOk 503)
           0 20 1000 1010); [vm_compute; reflexivity..|lia].
Defined.

End ChatExtra.

(** ** Further properties of [rateLimit] *)

Module RateExtra.

Import RateLimit RateLimitFacts.

Lemma prev_after (bs : gmap string Bucket) key N W now :
  prev (rateLimit bs key N W now).1 key = (step_ts N W now (prev bs key)).1.
Proof. rewrite rateLimit_spec. unfold prev. simpl. rewrite lookup_insert_eq. reflexivity. Qed.

Lemma length_filter_le {A} (f : A -> bool) (l : list A) :
  (length (List.filter f l) <= length l)%nat.
Proof. induction l as [|x l IH]; simpl; [lia|]. destruct (f x); simpl; lia. Qed.

(** A denied call reports [resetMs = r] with [r > 0]; when the bucket
    held at most [limit] timestamps, the same key called again at
    [now + r] (and no call in between) is admitted. *)
Theorem rateLimit_retry_after_reset (bs : gmap string Bucket) key N W now r :
  Z.of_nat (length (prev bs key)) <= N ->
  allowed (rateLimit bs key N W now).2 = false ->
  resetMs (rateLimit bs key N W now).2 = Some r ->
  0 < r /\ allowed (rateLimit (rateLimit bs key N W now).1 key N W (now + r)).2 = true.
Proof.
  intros Hlen Hden Hr.
  rewrite rateLimit_spec in Hden, Hr. simpl in Hden, Hr.
  rewrite rateLimit_spec. simpl. rewrite prev_after.
  pose proof (length_filter_le (fun t => now - t <? W) (prev bs key)) as Hf.
  unfold step_ts in *.
  destruct (N <=? Z.of_nat (length (List.filter (fun t => now - t <? W) (prev bs key)))) eqn:Hc;
    simpl in Hden; [|discriminate].
  simpl in Hr |- *.
  destruct (List.filter (fun t => now - t <? W) (prev bs key)) as [|t0 rest] eqn:Hts;
    [discriminate|].
  injection Hr as <-.
  assert (Ht0 : In t0 (List.filter (fun t => now - t <? W) (prev bs key)))
    by (rewrite Hts; left; reflexivity).
  apply List.filter_In in Ht0 as [_ Ht0]. apply Z.ltb_lt in Ht0.
  split; [lia|].
  rewrite Z.max_r by lia. simpl.
  replace (now + (W - (now - t0)) - t0 <? W) with false by (symmetry; apply Z.ltb_ge; lia).
  pose proof (length_filter_le (fun t => now + (W - (now - t0)) - t <? W) rest) as Hf2.
  simpl in Hf. destruct (Z.leb_spec N (Z.of_nat (length (List.filter
                          (fun t => now + (W - (now - t0)) - t <? W) rest)))); [lia|reflexivity].
Qed.

Lemma filter_window_all (now W : Z) (ts : list Z) :
  Forall (fun t => now - t < W) ts -> List.filter (fun t => now - t <? W) ts = ts.
Proof.
  induction 1 as [|t ts Ht _ IH]; simpl; [reflexivity|].
  rewrite (proj2 (Z.ltb_lt _ _) Ht), IH. reflexivity.
Qed.

Lemma run_key_same_instant (N W now : Z) (HW : 0 < W) (n : nat) :
  forall ts, Forall (fun t => now - t < W) ts -> Z.of_nat (length ts) + Z.of_nat n = N ->
  map allowed (run_key N W (repeat now (S n)) ts).2 = repeat true n ++ [false].
Proof.
  induction n as [|n IH]; intros ts Hall Hlen.
  - simpl. unfold step_ts. rewrite (filter_window_all now W ts Hall).
    rewrite (proj2 (Z.leb_le _ _)) by lia. reflexivity.
  - change (repeat now (S (S n))) with (now :: repeat now (S n)).
    remember (repeat now (S n)) as R eqn:HR.
    simpl run_key. unfold step_ts at 1. rewrite (filter_window_all now W ts Hall).
    rewrite (proj2 (Z.leb_gt _ _)) by lia.
    specialize (IH (ts ++ [now])).
    subst R. destruct (run_key N W (repeat now (S n)) (ts ++ [now])) as [tsf rs] eqn:Hk.
    simpl. f_equal. apply IH.
    + apply Forall_app. split; [exact Hall|]. constructor; [lia|constructor].
    + rewrite length_app. simpl. lia.
Qed.

(** An admitted call reports [remaining = m]: when the window is
    positive, exactly [m] further calls on the same key in the same
    millisecond are admitted and the next one is denied. *)
Theorem rateLimit_remaining_exact (bs : gmap string Bucket) key N W now :
  0 < W -> allowed (rateLimit bs key N W now).2 = true ->
  map allowed (runCalls (rateLimit bs key N W now).1
     (repeat (mkCall key N W now) (S (Z.to_nat (remaining (rateLimit bs key N W now).2))))).2
  = repeat true (Z.to_nat (remaining (rateLimit bs key N W now).2)) ++ [false].
Proof.
  intros HW Hadm.
  assert (Hm : forall k, repeat (mkCall key N W now) k = map (fun t => mkCall key N W t) (repeat now k))
    by (intros k; symmetry; apply List.map_repeat).
  rewrite Hm.
  rewrite (proj1 (runCalls_key _ key N W _)). rewrite prev_after.
  rewrite rateLimit_spec in Hadm |- *. simpl in Hadm |- *.
  unfold step_ts in *.
  set (ts1 := List.filter (fun t => now - t <? W) (prev bs key)) in *.
  destruct (N <=? Z.of_nat (length ts1)) eqn:Hc; simpl in Hadm; [discriminate|].
  apply Z.leb_gt in Hc. cbn [fst snd remaining allowed].
  apply run_key_same_instant; [exact HW| |].
  - apply Forall_app. split; [|constructor; [lia|constructor]].
    apply List.Forall_forall. intros t Ht. unfold ts1 in Ht.
    apply List.filter_In in Ht as [_ Ht]. apply Z.ltb_lt. exact Ht.
  - rewrite length_app. simpl. rewrite Z.max_r by lia. lia.
Qed.

Definition busy_buckets : gmap string Bucket := <["k" := mkBucket [0; 10] 2 100]> ∅.

Lemma rateLimit_retry_after_reset_witness :
  0 < 50 /\ allowed (rateLimit (rateLimit busy_buckets "k" 2 100 50).1 "k" 2 100 (50 + 50)).2 = true.
Proof.
  apply (rateLimit_retry_after_reset busy_buckets "k" 2 100 50 50);
    [vm_compute; discriminate|vm_compute; reflexivity|vm_compute; reflexivity].
Defined.

Lemma rateLimit_remaining_exact_witness :
  map allowed (runCalls (rateLimit ∅ "k" 3 100 5).1
     (repeat (mkCall "k" 3 100 5) (S (Z.to_nat (remaining (rateLimit ∅ "k" 3 100 5).2))))).2
  = repeat true (Z.to_nat (remaining (rateLimit ∅ "k" 3 100 5).2)) ++ [false].
Proof.
  apply (rateLimit_remaining_exact ∅ "k" 3 100 5); [lia|vm_compute; reflexivity].
Defined.

End RateExtra.

(** ** Further properties of the cache keys *)

Module KeyExtra.

Import Keys KeyFacts.

Lemma append_assoc_str (a b c : string) : ((a ++ b) ++ c)%string = (a ++ b ++ c)%string.
Proof. induction a as [|x a IH]; [reflexivity|]. exact (f_equal (String x) IH). Qed.

(** [generateCacheKey] does not separate its arguments: a [':'] inside
    the prefix or a part, or an empty list of parts against a single
    empty part, gives the same key as a different argument list. *)
Theorem generateCacheKey_collisions (p a b : string) (rest : list Part) :
  generateCacheKey p (PStr (a ++ ":" ++ b) :: rest) = generateCacheKey p (PStr a :: PStr b :: rest) /\
  (rest <> [] -> generateCacheKey (p ++ ":" ++ a) rest = generateCacheKey p (PStr a :: rest)) /\
  generateCacheKey p [] = generateCacheKey p [PStr ""].
Proof.
  unfold generateCacheKey. split; [|split; [|reflexivity]].
  - f_equal. f_equal. destruct rest as [|r rest]; [reflexivity|]. simpl join.
    rewrite !append_assoc_str. reflexivity.
  - intros Hne. destruct rest as [|r rest]; [congruence|]. simpl join.
    rewrite !append_assoc_str. reflexivity.
Qed.

Lemma no_colon_app_colon (a r : string) : no_colon (a ++ String ":" r) = false.
Proof.
  induction a as [|c a IH]; [reflexivity|].
  change (negb (Ascii.eqb c ":") && no_colon (a ++ String ":" r) = false)%string.
  rewrite IH. apply andb_false_r.
Qed.

Lemma no_colon_app_sep (a r : string) : no_colon (a ++ ":" ++ r) = false.
Proof. exact (no_colon_app_colon a r). Qed.

Lemma join_inj (l l' : list string) :
  Forall (fun s => no_colon s = true) l -> Forall (fun s => no_colon s = true) l' ->
  l <> [] -> l' <> [] -> join ":" l = join ":" l' -> l = l'.
Proof.
  revert l'. induction l as [|s l IH]; intros l' Hl Hl' Hne Hne' Hj; [congruence|].
  destruct l' as [|s' l']; [congruence|].
  inversion Hl as [|? ? Hs Hl1]; inversion Hl' as [|? ? Hs' Hl1']; subst.
  destruct l as [|y l]; destruct l' as [|y' l']; simpl in Hj.
  - subst. reflexivity.
  - exfalso. rewrite Hj, no_colon_app_sep in Hs. discriminate.
  - exfalso. rewrite <- Hj, no_colon_app_sep in Hs'. discriminate.
  - destruct (split_colon _ _ _ _ Hs Hs' Hj) as [-> Hj'].
    f_equal. apply IH; auto; discriminate.
Qed.

(** [generateCacheKey] is injective on arguments without [':']: for
    colon-free prefixes and non-empty lists of colon-free parts, equal
    keys mean equal prefixes and equal part strings. *)
Theorem generateCacheKey_injective (p p' : string) (parts parts' : list Part) :
  no_colon p = true -> no_colon p' = true ->
  Forall (fun x => no_colon (part_to_string x) = true) parts ->
  Forall (fun x => no_colon (part_to_string x) = true) parts' ->
  parts <> [] -> parts' <> [] ->
  generateCacheKey p parts = generateCacheKey p' parts' ->
  p = p' /\ map part_to_string parts = map part_to_string parts'.
Proof.
  intros Hp Hp' Hl Hl' Hne Hne' H. unfold generateCacheKey in H. cbn [String.append] in H.
  destruct (split_colon _ _ _ _ Hp Hp' H) as [-> Hj]. split; [reflexivity|].
  apply join_inj; auto.
  - apply List.Forall_map. exact Hl.
  - apply List.Forall_map. exact Hl'.
  - destruct parts; [congruence|discriminate].
  - destruct parts'; [congruence|discriminate].
Qed.

Lemma toInt32_range (z : Z) : - 2 ^ 31 <= toInt32 z < 2 ^ 31.
Proof.
  unfold toInt32. pose proof (Z.mod_pos_bound z (2 ^ 32) ltac:(lia)).
  destruct (Z.geb_spec (z mod 2 ^ 32) (2 ^ 31)); lia.
Qed.

Lemma simpleHash_step_range (h c : Z) : - 2 ^ 31 <= simpleHash_step h c < 2 ^ 31.
Proof. unfold simpleHash_step, js_and. rewrite Z.land_diag. apply toInt32_range. Qed.

Lemma simpleHash_fold_range (str : JsString) (h : Z) :
  - 2 ^ 31 <= h < 2 ^ 31 -> - 2 ^ 31 <= fold_left simpleHash_step str h < 2 ^ 31.
Proof.
  revert h. induction str as [|c str IH]; intros h Hh; [exact Hh|].
  simpl. apply IH. apply simpleHash_step_range.
Qed.

Lemma length_radix36 (fuel : nat) (n : Z) (acc : string) (d : Z) :
  0 <= n < 36 ^ d -> 1 <= d -> (String.length (radix36 fuel n acc) <= Z.to_nat d + String.length acc)%nat.
Proof.
  revert n acc d. induction fuel as [|f IH]; intros n acc d Hn Hd; simpl; [lia|].
  destruct (Z.eqb_spec (n / 36) 0) as [H0|H0]; simpl; [lia|].
  assert (Hd2 : 2 <= d).
  { destruct (Z.leb_spec d 1) as [Hle|]; [|lia].
    assert (d = 1) by lia. subst d. simpl in Hn.
    rewrite Z.div_small in H0 by lia. congruence. }
  pose proof (IH (n / 36) (String (digit36 (n mod 36)) acc) (d - 1)) as IH'.
  simpl in IH'. assert (Hq : 0 <= n / 36 < 36 ^ (d - 1)).
  { split; [apply Z.div_pos; lia|].
    apply Z.div_lt_upper_bound; [lia|].
    replace (36 * 36 ^ (d - 1)) with (36 ^ d); [lia|].
    rewrite <- Z.pow_succ_r by lia. f_equal. lia. }
  specialize (IH' Hq ltac:(lia)). lia.
Qed.

Lemma digit36_in (d : Z) : In (digit36 d) (list_ascii_of_string digits36).
Proof.
  unfold digit36. destruct (String.get (Z.to_nat d) digits36) as [c|] eqn:Hg; [|simpl; auto].
  revert Hg. generalize (Z.to_nat d). generalize digits36. intros s.
  induction s as [|c' s IH]; intros [|i] Hg; simpl in Hg; try discriminate.
  - injection Hg as ->. left. reflexivity.
  - right. exact (IH i Hg).
Qed.

Lemma radix36_digits (fuel : nat) (n : Z) (acc : string) :
  Forall (fun c => In c (list_ascii_of_string digits36)) (list_ascii_of_string acc) ->
  Forall (fun c => In c (list_ascii_of_string digits36)) (list_ascii_of_string (radix36 fuel n acc)).
Proof.
  revert n acc. induction fuel as [|f IH]; intros n acc Hacc; simpl; [exact Hacc|].
  assert (Hacc' : Forall (fun c => In c (list_ascii_of_string digits36))
                    (list_ascii_of_string (String (digit36 (n mod 36)) acc)))
    by (simpl; constructor; [apply digit36_in|exact Hacc]).
  destruct (n / 36 =? 0); [exact Hacc'|apply IH; exact Hacc'].
Qed.

Lemma length_radix36_pos (fuel : nat) (n : Z) (acc : string) :
  (String.length acc <= String.length (radix36 fuel n acc))%nat.
Proof.
  revert n acc. induction fuel as [|f IH]; intros n acc; simpl; [lia|].
  destruct (n / 36 =? 0); simpl; [lia|]. specialize (IH (n / 36) (String (digit36 (n mod 36)) acc)).
  simpl in IH. lia.
Qed.

Lemma length_radix36_S (fuel : nat) (n : Z) (acc : string) :
  (S (String.length acc) <= String.length (radix36 (S fuel) n acc))%nat.
Proof.
  simpl. destruct (n / 36 =? 0); [simpl; lia|].
  pose proof (length_radix36_pos fuel (n / 36) (String (digit36 (n mod 36)) acc)) as H.
  simpl in H. exact H.
Qed.

(** The hash part of a query cache key is one to six characters, each a
    lowercase base-36 digit ([0-9a-z]): [Math.abs] of a 32-bit integer
    is at most [2^31 < 36^6]. *)
Theorem simpleHash_shape (q : JsString) :
  (1 <= String.length (simpleHash q) <= 6)%nat /\
  Forall (fun c => In c (list_ascii_of_string digits36)) (list_ascii_of_string (simpleHash q)).
Proof.
  unfold simpleHash, toString36.
  pose proof (simpleHash_fold_range q 0 ltac:(lia)) as Hr.
  set (n := Z.abs (fold_left simpleHash_step q 0)).
  assert (Hn : 0 <= n < 36 ^ 6) by (unfold n; lia).
  split; [split|].
  - exact (length_radix36_S _ n EmptyString).
  - pose proof (length_radix36 (S (Z.to_nat (Z.log2 n))) n EmptyString 6 Hn ltac:(lia)) as H.
    simpl in H |- *. lia.
  - apply radix36_digits. constructor.
Qed.

Lemma generateCacheKey_collisions_witness :
  generateCacheKey ("rag" ++ ":" ++ "x") [PNum 5] = generateCacheKey "rag" [PStr "x"; PNum 5].
Proof. apply (proj1 (proj2 (generateCacheKey_collisions "rag" "x" "y" [PNum 5]))). discriminate. Defined.

Lemma generateCacheKey_injective_witness :
  "query"%string = "query"%string /\
  map part_to_string [PStr "abc"; PNum 5] = map part_to_string [PStr "abc"; PStr "5"].
Proof.
  apply (generateCacheKey_injective "query" "query" [PStr "abc"; PNum 5] [PStr "abc"; PStr "5"]);
    [reflexivity|reflexivity|repeat constructor|repeat constructor|discriminate|discriminate|
     vm_compute; reflexivity].
Defined.

End KeyExtra.

(** ** The upload route *)

Module UploadFacts.

Import RateLimit Upload.

(** The [File] entries of a form, in order, and the sum of their sizes. *)
Fixpoint file_entries (files : list FormEntry) : list (Name * Z * string) :=
  match files with
  | [] => []
  | FileEntry n sz ty :: fs => (n, sz, ty) :: file_entries fs
  | TextEntry _ :: fs => file_entries fs
  end.

Definition sum_sizes (l : list (Name * Z * string)) : Z :=
  fold_right (fun '(_, sz, _) acc => sz + acc) 0 l.

(** The per-file checks a [File] entry passes in the loop. *)
Definition file_checks_pass (f : Name * Z * string) : Prop :=
  let '(n, sz, _) := f in
  sz <= MAX_FILE_SIZE /\
  includes (substring_from (lastIndexOf "." n) (toLowerCase n)) ALLOWED_EXTENSIONS = true /\
  suspicious (toLowerCase n) = false.

Section Facts.

Variable save : Name -> Z -> string -> string.

Lemma upload_loop_accepts (files : list FormEntry) (t : Z) (s s' : list string) :
  upload_loop save files t s = (s', None) -> t <= MAX_TOTAL_SIZE ->
  s' = s ++ map (fun '(n, sz, ty) => save n sz ty) (file_entries files) /\
  Forall file_checks_pass (file_entries files) /\
  t + sum_sizes (file_entries files) <= MAX_TOTAL_SIZE.
Proof.
  revert t s. induction files as [|[n sz ty|v] fs IH]; intros t s H Ht;
    cbn [upload_loop] in H; cbn [file_entries].
  - injection H as <-. rewrite app_nil_r. split; [reflexivity|].
    split; [apply List.Forall_nil|simpl; lia].
  - destruct (Z.gtb_spec sz MAX_FILE_SIZE); [discriminate|].
    destruct (Z.gtb_spec (t + sz) MAX_TOTAL_SIZE); [discriminate|].
    destruct (includes (substring_from (lastIndexOf "." n) (toLowerCase n)) ALLOWED_EXTENSIONS)
      eqn:Hext; cbn [negb] in H; [|discriminate].
    destruct (suspicious (toLowerCase n)) eqn:Hs; [discriminate|].
    destruct (negb _ && negb _); [discriminate|].
    destruct (IH _ _ H ltac:(lia)) as (-> & Hall & Hsum).
    split; [rewrite <- app_assoc; reflexivity|]. split; [|simpl; lia].
    constructor; [|exact Hall]. repeat split; assumption.
  - exact (IH t s H Ht).
Qed.

(** An upload answered 200 had between 1 and 12 form entries; each of
    its [File] entries is at most 25MB, has an allowed extension and no
    suspicious pattern, and together they are at most 100MB; exactly
    those files were written, in form order, and their paths were posted
    to the backend. *)
Theorem upload_accepted_spec bs ip files backend now :
  ustatus (upload_POST save bs ip (Some files) backend now).2 = 200 ->
  (1 <= length files)%nat /\ Z.of_nat (length files) <= MAX_FILES /\
  Forall file_checks_pass (file_entries files) /\
  sum_sizes (file_entries files) <= MAX_TOTAL_SIZE /\
  written (upload_POST save bs ip (Some files) backend now).2 =
    map (fun '(n, sz, ty) => save n sz ty) (file_entries files) /\
  ingest_paths (upload_POST save bs ip (Some files) backend now).2 =
    Some (written (upload_POST save bs ip (Some files) backend now).2).
Proof.
  unfold upload_POST. destruct (rateLimit bs _ 20 60000 now) as [bs1 rl].
  destruct (allowed rl); simpl; [|discriminate].
  destruct (Nat.eqb_spec (length files) 0); simpl; [discriminate|].
  destruct (Z.gtb_spec (Z.of_nat (length files)) MAX_FILES); simpl; [discriminate|].
  destruct (upload_loop save files 0 []) as [saved [r|]] eqn:Hl; [discriminate|].
  destruct (upload_loop_accepts files 0 [] saved Hl ltac:(unfold MAX_TOTAL_SIZE; lia))
    as (-> & Hall & Hsum).
  destruct backend; simpl; try discriminate. intros _.
  repeat split; auto; lia.
Qed.

Lemma upload_loop_app (pre post : list FormEntry) (t : Z) (s : list string) :
  upload_loop save (pre ++ post) t s =
  match upload_loop save pre t s with
  | (s1, Some r) => (s1, Some r)
  | (s1, None) => upload_loop save post (t + sum_sizes (file_entries pre)) s1
  end.
Proof.
  revert t s. induction pre as [|[n sz ty|v] pre IH]; intros t s.
  - simpl. rewrite Z.add_0_r. reflexivity.
  - cbn [app upload_loop file_entries].
    destruct (sz >? MAX_FILE_SIZE); [reflexivity|].
    destruct (t + sz >? MAX_TOTAL_SIZE); [reflexivity|].
    destruct (negb (includes _ ALLOWED_EXTENSIONS)); [reflexivity|].
    destruct (suspicious (toLowerCase n)); [reflexivity|].
    destruct (negb _ && negb _); [reflexivity|].
    rewrite IH. destruct (upload_loop save pre (t + sz) (s ++ [save n sz ty])) as [s1 [r|]];
      [reflexivity|]. simpl. rewrite Z.add_assoc. reflexivity.
  - cbn [app upload_loop file_entries]. apply IH.
Qed.

(** The loop writes each file as soon as it passes its checks: an
    upload whose next [File] entry is over 25MB is answered 400 and
    nothing is posted to the backend, yet the earlier files that passed
    their checks stay written. *)
Theorem upload_rejection_keeps_written bs ip pre n sz ty post backend now :
  allowed (rateLimit bs ("upload:" ++ ip)%string 20 60000 now).2 = true ->
  Z.of_nat (length (pre ++ FileEntry n sz ty :: post)) <= MAX_FILES ->
  (upload_loop save pre 0 []).2 = None ->
  sz > MAX_FILE_SIZE ->
  ustatus (upload_POST save bs ip (Some (pre ++ FileEntry n sz ty :: post)) backend now).2 = 400 /\
  written (upload_POST save bs ip (Some (pre ++ FileEntry n sz ty :: post)) backend now).2 =
    (upload_loop save pre 0 []).1 /\
  ingest_paths (upload_POST save bs ip (Some (pre ++ FileEntry n sz ty :: post)) backend now).2 = None.
Proof.
  intros Hrl Hlen Hpre Hsz. unfold upload_POST.
  destruct (rateLimit bs _ 20 60000 now) as [bs1 rl]. simpl in Hrl. rewrite Hrl. simpl.
  rewrite length_app in *. simpl length in *.
  destruct (Nat.eqb_spec (length pre + S (length post)) 0); [lia|].
  destruct (Z.gtb_spec (Z.of_nat (length pre + S (length post))) MAX_FILES); [lia|].
  rewrite upload_loop_app.
  destruct (upload_loop save pre 0 []) as [s1 [r|]]; simpl in Hpre; [discriminate|].
  cbn [upload_loop]. replace (sz >? MAX_FILE_SIZE) with true by (symmetry; apply Z.gtb_lt; lia).
  simpl. auto.
Qed.

Lemma ends_with_skipn (k : nat) (s : Name) : ends_with (skipn k s) s = true.
Proof.
  unfold ends_with. rewrite List.length_skipn.
  apply andb_true_intro. split; [apply Nat.leb_le; lia|].
  apply bool_decide_eq_true.
  destruct (Nat.le_gt_cases k (length s)).
  - f_equal. lia.
  - rewrite (List.skipn_all2 s (n := k)) by lia.
    replace (length s - (length s - k))%nat with (length s) by lia.
    apply List.skipn_all2. lia.
Qed.

Lemma ends_with_both (a b s : Name) :
  ends_with a s = true -> ends_with b s = true -> (length a <= length b)%nat ->
  ends_with a b = true.
Proof.
  unfold ends_with. intros Ha Hb Hab.
  apply andb_prop in Ha as [Ha1 Ha2]. apply andb_prop in Hb as [Hb1 Hb2].
  apply Nat.leb_le in Ha1, Hb1. apply bool_decide_eq_true in Ha2, Hb2.
  apply andb_true_intro. split; [apply Nat.leb_le; exact Hab|].
  apply bool_decide_eq_true.
  transitivity (skipn (length b - length a) (skipn (length s - length b) s)); [rewrite Hb2; reflexivity|].
  rewrite List.skipn_skipn. etransitivity; [|exact Ha2]. f_equal. lia.
Qed.

Lemma includes_In (x : Name) (l : list Name) : includes x l = true -> In x l.
Proof.
  unfold includes. intros H. apply existsb_exists in H as [y [Hy Hxy]].
  apply bool_decide_eq_true in Hxy. subst. exact Hy.
Qed.

Lemma allowed_vs_suffix_patterns :
  forallb (fun e => forallb (fun p => negb (ends_with p e) && negb (ends_with e p))
                      SUSPICIOUS_SUFFIXES) ALLOWED_EXTENSIONS = true.
Proof. vm_compute. reflexivity. Qed.

(** Of the checks in the loop, the MIME-type check never rejects a file
    and the seven suffix patterns ([.exe], [.js], ...) never fire: a file
    that reaches them has an allowed extension.  A file rejected as
    suspicious matches one of the five patterns [<script], [javascript:],
    [vbscript:], [onload=], [onerror=]. *)
Theorem upload_loop_rejections (files : list FormEntry) (t : Z) (s : list string) :
  match (upload_loop save files t s).2 with
  | Some (BadMime _) => False
  | Some (Suspicious n) => existsb (fun p => contains p (toLowerCase n)) SUSPICIOUS_INFIXES = true
  | _ => True
  end.
Proof.
  revert t s. induction files as [|[n sz ty|v] fs IH]; intros t s; cbn [upload_loop]; [exact I| |apply IH].
  destruct (sz >? MAX_FILE_SIZE); [exact I|].
  destruct (t + sz >? MAX_TOTAL_SIZE); [exact I|].
  destruct (includes (substring_from (lastIndexOf "." n) (toLowerCase n)) ALLOWED_EXTENSIONS)
    eqn:Hext; cbn [negb]; [|exact I].
  pose proof (includes_In _ _ Hext) as Hin.
  pose proof (ends_with_skipn (Z.to_nat (lastIndexOf "." n)) (toLowerCase n)) as Hend.
  fold (substring_from (lastIndexOf "." n) (toLowerCase n)) in Hend.
  set (ext := substring_from (lastIndexOf "." n) (toLowerCase n)) in *.
  destruct (suspicious (toLowerCase n)) eqn:Hs.
  - simpl. unfold suspicious in Hs. apply orb_prop in Hs as [Hs|Hs]; [|exact Hs].
    exfalso. apply existsb_exists in Hs as [p [Hp Hpe]].
    pose proof allowed_vs_suffix_patterns as Hall.
    rewrite forallb_forall in Hall. specialize (Hall ext Hin).
    rewrite forallb_forall in Hall. specialize (Hall p Hp).
    apply andb_prop in Hall as [H1 H2]. apply negb_true_iff in H1, H2.
    destruct (Nat.le_ge_cases (length p) (length ext)).
    + rewrite (ends_with_both p ext _ Hpe Hend) in H1 by assumption. discriminate.
    + rewrite (ends_with_both ext p _ Hend Hpe) in H2 by assumption. discriminate.
  - assert (Hmime : existsb (fun e => ends_with e (toLowerCase n)) ALLOWED_EXTENSIONS = true).
    { apply existsb_exists. exists ext. split; assumption. }
    rewrite Hmime, andb_false_r. apply IH.
Qed.

Lemma upload_loop_no_files (files : list FormEntry) (t : Z) (s : list string) :
  file_entries files = [] -> upload_loop save files t s = (s, None).
Proof.
  induction files as [|[n sz ty|v] fs IH]; intros H; [reflexivity|discriminate|].
  cbn [upload_loop]. apply IH. exact H.
Qed.

(** A form whose 1 to 12 [files] entries are all plain strings, not
    files, passes validation: nothing is written, an empty [file_paths]
    list is posted to the backend, and an ok answer gives 200. *)
Theorem upload_text_only bs ip files n now :
  allowed (rateLimit bs ("upload:" ++ ip)%string 20 60000 now).2 = true ->
  (1 <= length files)%nat -> Z.of_nat (length files) <= MAX_FILES ->
  file_entries files = [] ->
  (upload_POST save bs ip (Some files) (IngestOk n) now).2 =
    mkUploadResult 200 [] (Some []) (Some match n with Some k => k | None => 0 end).
Proof.
  intros Hrl H1 H12 Hno. unfold upload_POST.
  destruct (rateLimit bs _ 20 60000 now) as [bs1 rl]. simpl in Hrl. rewrite Hrl. simpl.
  destruct (Nat.eqb_spec (length files) 0); [lia|].
  destruct (Z.gtb_spec (Z.of_nat (length files)) MAX_FILES); [lia|].
  rewrite (upload_loop_no_files files 0 [] Hno). reflexivity.
Qed.

End Facts.


(** A [saveIncomingFile] that names the saved file after the upload,
    and a sample form, for the witnesses below. *)
Definition save_by_name (n : Name) (sz : Z) (ty : string) : string := string_of_list_ascii n.

Definition sample_form : list FormEntry :=
  [FileEntry (L "Report.PDF") 1000 "application/pdf"; TextEntry "note";
   FileEntry (L "notes.md") 20 "text/markdown"].

Lemma upload_accepted_spec_witness :
  (1 <= length sample_form)%nat /\ Z.of_nat (length sample_form) <= MAX_FILES /\
  Forall file_checks_pass (file_entries sample_form) /\
  sum_sizes (file_entries sample_form) <= MAX_TOTAL_SIZE /\
  written (upload_POST save_by_name ∅ "1.2.3.4" (Some sample_form) (IngestOk None) 0).2 =
    map (fun '(n, sz, ty) => save_by_name n sz ty) (file_entries sample_form) /\
  ingest_paths (upload_POST save_by_name ∅ "1.2.3.4" (Some sample_form) (IngestOk None) 0).2 =
    Some (written (upload_POST save_by_name ∅ "1.2.3.4" (Some sample_form) (IngestOk None) 0).2).
Proof.
  apply (upload_accepted_spec save_by_name ∅ "1.2.3.4" sample_form (IngestOk None) 0).
  vm_compute. reflexivity.
Defined.

Lemma upload_rejection_keeps_written_witness :
  let form := [FileEntry (L "a.txt") 10 "text/plain"] ++
              FileEntry (L "big.pdf") (30 * 1024 * 1024) "application/pdf" :: [] in
  ustatus (upload_POST save_by_name ∅ "1.2.3.4" (Some form) (IngestOk None) 0).2 = 400 /\
  written (upload_POST save_by_name ∅ "1.2.3.4" (Some form) (IngestOk None) 0).2 =
    (upload_loop save_by_name [FileEntry (L "a.txt") 10 "text/plain"] 0 []).1 /\
  ingest_paths (upload_POST save_by_name ∅ "1.2.3.4" (Some form) (IngestOk None) 0).2 = None.
Proof.
  apply (upload_rejection_keeps_written save_by_name ∅ "1.2.3.4"
           [FileEntry (L "a.txt") 10 "text/plain"] (L "big.pdf") (30 * 1024 * 1024)
           "application/pdf" [] (IngestOk None) 0);
    [vm_compute; reflexivity|vm_compute; discriminate|vm_compute; reflexivity|vm_compute; reflexivity].
Defined.

Lemma upload_text_only_witness :
  (upload_POST save_by_name ∅ "1.2.3.4" (Some [TextEntry "x"]) (IngestOk None) 0).2 =
    mkUploadResult 200 [] (Some []) (Some 0).
Proof.
  apply (upload_text_only save_by_name ∅ "1.2.3.4" [TextEntry "x"] None 0);
    [vm_compute; reflexivity|simpl; lia|vm_compute; discriminate|reflexivity].
Defined.

End UploadFacts.

(** ** [BrowserStorageCache] *)

Module BrowserFacts.

Import Browser KeyExtra.

Section Facts.

Context {V : Type}.

(** A cache with prefix [p ++ "_" ++ q] and one with prefix [p] use the
    same storage slot for keys [k] and [q ++ "_" ++ k]: each reads,
    overwrites and expires the other's entries. *)
Theorem storage_prefix_aliasing (st : gmap string (Item V)) (p q k : string) v ttl now fits :
  storage_key (p ++ "_" ++ q) k = storage_key p (q ++ "_" ++ k) /\
  bget st (p ++ "_" ++ q) k now = bget st p (q ++ "_" ++ k) now /\
  bset st (p ++ "_" ++ q) k v ttl now fits = bset st p (q ++ "_" ++ k) v ttl now fits.
Proof.
  assert (H : storage_key (p ++ "_" ++ q) k = storage_key p (q ++ "_" ++ k)).
  { unfold storage_key. rewrite !append_assoc_str. reflexivity. }
  split; [exact H|]. unfold bget, bset, bdelete. rewrite H. auto.
Qed.


Lemma prefix_app (a b : string) : String.prefix a (a ++ b) = true.
Proof.
  induction a as [|c a IH]; [destruct b; reflexivity|].
  change (String.prefix (String c a) (String c (a ++ b)) = true).
  simpl. destruct (Ascii.ascii_dec c c); [exact IH|congruence].
Qed.

(** [clear()] removes exactly the storage keys that start with
    [prefix ++ "_"] and keeps every other key, so it also empties every
    cache whose prefix starts with [prefix ++ "_"]. *)
Theorem bclear_spec (st : gmap string (Item V)) (p s : string) :
  bclear st p !! s = (if String.prefix (p ++ "_") s then None else st !! s) /\
  (forall q k, bclear st p !! storage_key (p ++ "_" ++ q) k = None).
Proof.
  assert (Hl : forall s, bclear st p !! s = (if String.prefix (p ++ "_") s then None else st !! s)).
  { intros s'. unfold bclear. rewrite map_lookup_filter.
    destruct (st !! s') as [it|]; simpl;
      [|destruct (String.prefix (p ++ "_") s'); reflexivity].
    destruct (String.prefix (p ++ "_") s') eqn:Hp.
    - rewrite option_guard_False; [reflexivity|congruence].
    - rewrite option_guard_True; [reflexivity|exact eq_refl]. }
  split; [apply Hl|]. intros q k. rewrite Hl.
  unfold storage_key.
  replace ((p ++ "_" ++ q) ++ "_" ++ k)%string with ((p ++ "_") ++ (q ++ "_" ++ k))%string
    by (rewrite !append_assoc_str; reflexivity).
  rewrite prefix_app. reflexivity.
Qed.

End Facts.

End BrowserFacts.
